(** * libzdb: PreparedStatement, ResultSet and Time

    A shallow embedding of [src/db/PreparedStatement.c] together with the
    documented interfaces [ResultSet.h] and [system/Time.h].

    - C [int], [long long], [time_t] and the fixed width integers are [Z];
      the values are only passed on, never computed with, so no wrap-around
      occurs in this layer.
    - [const char *] is [option string], [None] being the NULL pointer.
    - [double] is the binary64 type [float].
    - [THROW(SQLException, ...)] is the [Throw] outcome; the state reached
      before the throw is kept, as with the library's setjmp based
      exceptions.
    - [assert(P)] guards against NULL objects; objects are values here, so
      the assertion holds by typing. *)

From Stdlib Require Import ZArith Floats Ascii String.
From stdpp Require Import gmap strings list.

Local Open Scope string_scope.
Local Open Scope list_scope.
Local Open Scope Z_scope.

(** ** Exceptions *)

(** The error taxonomy.  In C every one of them is an [SQLException]; the
    kind tells which condition was detected. *)
Inductive error_kind : Set :=
| OutOfRange
| ColumnNotFound
| ConversionError
| DatabaseAccessError
| ExecutionError.

Inductive exception : Set :=
| SQLException (kind : error_kind) (message : string).

Inductive outcome (A : Type) : Type :=
| Ok (a : A)
| Throw (e : exception).
Arguments Ok {A} a.
Arguments Throw {A} e.

Definition raised {A} (k : error_kind) (r : outcome A) : Prop :=
  exists message, r = Throw (SQLException k message).

Definition raises {A} (r : outcome A) : bool :=
  match r with Ok _ => false | Throw _ => true end.

Definition obind {A B} (r : outcome A) (k : A -> outcome B) : outcome B :=
  match r with
  | Ok a => k a
  | Throw e => Throw e
  end.

#[global] Instance error_kind_eq_dec : EqDecision error_kind.
Proof. solve_decision. Defined.

#[global] Instance exception_eq_dec : EqDecision exception.
Proof. solve_decision. Defined.

(** ** SQLDateTime *)

Record sqldate_t := { year : Z; month : Z; day : Z }.
Record sqltime_t := { hour : Z; minute : Z; second : Z; usec : Z }.
Record sqldatetime_t := { date : sqldate_t; time : sqltime_t }.

Definition sqldate_zero : sqldate_t := {| year := 0; month := 0; day := 0 |}.
Definition sqltime_zero : sqltime_t :=
  {| hour := 0; minute := 0; second := 0; usec := 0 |}.
Definition sqldatetime_zero : sqldatetime_t :=
  {| date := sqldate_zero; time := sqltime_zero |}.

(** ** Conversions of the raw text

    The numeric parsers ([Str.c]) and the date scanner behind [Time.h] are
    not part of the sources at hand.  Their behaviour on a text that is
    present is an interface; [None] is "cannot be converted". *)
Class Conversions := {
  Str_parseInt : string -> option Z;
  Str_parseLLong : string -> option Z;
  Str_parseDouble : string -> option float;
  parseTimestamp : string -> option Z;
  parseDate : string -> option sqldate_t;
  parseTime : string -> option sqltime_t;
  parseDateTime : string -> option sqldatetime_t
}.

Definition convert {A} (what : string) (r : option A) : outcome A :=
  match r with
  | Some a => Ok a
  | None => Throw (SQLException ConversionError what)
  end.

Module Time.
Section Time.
Context `{Conversions}.

(** Modelled from the spec: the body of [Time_toTimestamp] ([Time.c] is
    missing).  "A NULL/absent input raises a conversion error for toX
    entry points"; a text that is present goes through the temporal
    parser. *)
Definition Time_toTimestamp (t : option string) : outcome Z :=
  match t with
  | None => Throw (SQLException ConversionError "Time_toTimestamp")
  | Some s => convert "Time_toTimestamp" (parseTimestamp s)
  end.

(** Modelled from the spec: the body of [Time_toDate] ([Time.c] is
    missing).  [system/Time.h]: SQLException "if the parameter value
    cannot be converted to a valid Date, for instance if t is NULL". *)
Definition Time_toDate (t : option string) : outcome sqldate_t :=
  match t with
  | None => Throw (SQLException ConversionError "Time_toDate")
  | Some s => convert "Time_toDate" (parseDate s)
  end.

(** Modelled from the spec: the body of [Time_toTime] ([Time.c] is
    missing); NULL raises, as documented in [system/Time.h]. *)
Definition Time_toTime (t : option string) : outcome sqltime_t :=
  match t with
  | None => Throw (SQLException ConversionError "Time_toTime")
  | Some s => convert "Time_toTime" (parseTime s)
  end.

(** Modelled from the spec: the body of [Time_toDateTime] ([Time.c] is
    missing); NULL raises, as documented in [system/Time.h]. *)
Definition Time_toDateTime (t : option string) : outcome sqldatetime_t :=
  match t with
  | None => Throw (SQLException ConversionError "Time_toDateTime")
  | Some s => convert "Time_toDateTime" (parseDateTime s)
  end.
End Time.
End Time.

(** ** ResultSet *)

Module ResultSet.

(** A column value is kept in its raw representation; [None] is SQL
    NULL, which differs from the empty text. *)
Definition column_value : Type := option string.
Definition row : Type := list column_value.

(** What the backend hands over when the cursor is advanced: the next
    row, or the report of a failed access. *)
Inductive fetch : Type :=
| Row (r : row)
| Failure (message : string).

(** Modelled from the spec: [struct ResultSet_S] ([ResultSet.c] and the
    backends are missing).  The column names are fixed for the lifetime
    of the set; [current] is the row under the cursor, absent before the
    first row and after the last one; [pending] is what later
    advances of the forward-only cursor will meet. *)
Record ResultSet_S := {
  columns : list string;
  current : option row;
  pending : list fetch
}.

Section Getters.
Context `{Conversions}.

(** Modelled from the spec: [ResultSet_getColumnCount], "number of
    columns, fixed for the lifetime of the result set". *)
Definition ResultSet_getColumnCount (R : ResultSet_S) : Z :=
  Z.of_nat (length (columns R)).

Definition inRange (R : ResultSet_S) (columnIndex : Z) : bool :=
  (1 <=? columnIndex) && (columnIndex <=? ResultSet_getColumnCount R).

(** Modelled from the spec: [ResultSet_getColumnName], "returns the
    declared name or absent if index is out of range (non-throwing
    probe)". *)
Definition ResultSet_getColumnName (R : ResultSet_S) (columnIndex : Z)
  : option string :=
  if inRange R columnIndex then columns R !! Z.to_nat (columnIndex - 1)
  else None.

(** Modelled from the spec: the access every indexed getter starts with.
    "Column indices are 1-based and must lie in [1, columnCount];
    violating this is a reportable error".  The index is checked before
    anything is read.  The spec is silent about a getter used while no
    row is current; as no sentinel may stand for a failure, this is
    reported as a database access error. *)
Definition _column (who : string) (R : ResultSet_S) (columnIndex : Z)
  : outcome column_value :=
  if inRange R columnIndex then
    match current R with
    | Some r =>
        match r !! Z.to_nat (columnIndex - 1) with
        | Some v => Ok v
        | None => Throw (SQLException DatabaseAccessError who)
        end
    | None => Throw (SQLException DatabaseAccessError who)
    end
  else Throw (SQLException OutOfRange who).

(** Modelled from the spec: [ResultSet_getColumnSize], "byte length of
    the raw representation of the current row's value at that column;
    throws OutOfRange if index invalid". *)
Definition ResultSet_getColumnSize (R : ResultSet_S) (columnIndex : Z)
  : outcome Z :=
  obind (_column "ResultSet_getColumnSize" R columnIndex) (fun v =>
  Ok (match v with
      | Some s => Z.of_nat (String.length s)
      | None => 0
      end)).

(** Modelled from the spec: [ResultSet_next], "advances the cursor;
    returns false and leaves the cursor in an exhausted state when no
    more rows exist; on a database-access failure raises a database
    error instead of returning false silently".  A call either succeeds
    or raises: a failed advance leaves the set as it was. *)
Definition ResultSet_next (R : ResultSet_S) : outcome bool * ResultSet_S :=
  match pending R with
  | [] =>
      (Ok false, {| columns := columns R; current := None; pending := [] |})
  | Row r :: rest =>
      (Ok true,
        {| columns := columns R; current := Some r; pending := rest |})
  | Failure message :: _ =>
      (Throw (SQLException DatabaseAccessError message), R)
  end.

(** The set after [n] further calls of [ResultSet_next], whatever they
    returned. *)
Fixpoint nexts (n : nat) (R : ResultSet_S) : ResultSet_S :=
  match n with
  | O => R
  | S n => nexts n (snd (ResultSet_next R))
  end.

(** Modelled from the spec: [ResultSet_isnull], "true iff the current
    row's column holds SQL NULL". *)
Definition ResultSet_isnull (R : ResultSet_S) (columnIndex : Z)
  : outcome bool :=
  obind (_column "ResultSet_isnull" R columnIndex) (fun v =>
  Ok (match v with Some _ => false | None => true end)).

(** Modelled from the spec: [ResultSet_getString], "returns the raw
    representation; NULL means SQL NULL". *)
Definition ResultSet_getString (R : ResultSet_S) (columnIndex : Z)
  : outcome (option string) :=
  _column "ResultSet_getString" R columnIndex.

(** Modelled from the spec: the numeric getters "parse the raw
    representation into the requested numeric type; on SQL NULL returns
    the type's zero value; on a non-numeric or overflowing representation
    raises a conversion error". *)
Definition ResultSet_getInt (R : ResultSet_S) (columnIndex : Z)
  : outcome Z :=
  obind (_column "ResultSet_getInt" R columnIndex) (fun v =>
  match v with
  | Some s => convert "ResultSet_getInt" (Str_parseInt s)
  | None => Ok 0
  end).

(** Modelled from the spec: [ResultSet_getLLong], as [ResultSet_getInt]
    with the 64 bit parser. *)
Definition ResultSet_getLLong (R : ResultSet_S) (columnIndex : Z)
  : outcome Z :=
  obind (_column "ResultSet_getLLong" R columnIndex) (fun v =>
  match v with
  | Some s => convert "ResultSet_getLLong" (Str_parseLLong s)
  | None => Ok 0
  end).

(** Modelled from the spec: [ResultSet_getDouble], as [ResultSet_getInt]
    with the floating point parser; SQL NULL gives 0.0. *)
Definition ResultSet_getDouble (R : ResultSet_S) (columnIndex : Z)
  : outcome float :=
  obind (_column "ResultSet_getDouble" R columnIndex) (fun v =>
  match v with
  | Some s => convert "ResultSet_getDouble" (Str_parseDouble s)
  | None => Ok 0%float
  end).

(** Modelled from the spec: [ResultSet_getBlob], "raw bytes, no
    conversion, NULL+0 on SQL NULL".  The result pairs the returned
    pointer with the value stored through [size]. *)
Definition ResultSet_getBlob (R : ResultSet_S) (columnIndex : Z)
  : outcome (option string * Z) :=
  obind (_column "ResultSet_getBlob" R columnIndex) (fun v =>
  Ok (match v with
      | Some s => (Some s, Z.of_nat (String.length s))
      | None => (None, 0)
      end)).

(** Modelled from the spec: the temporal getters "delegate to the
    Temporal Parser on the raw representation; return a zero-valued
    structure on SQL NULL; raise a conversion error if the representation
    cannot be parsed". *)
Definition ResultSet_getTimestamp (R : ResultSet_S) (columnIndex : Z)
  : outcome Z :=
  obind (_column "ResultSet_getTimestamp" R columnIndex) (fun v =>
  match v with
  | Some s => Time.Time_toTimestamp (Some s)
  | None => Ok 0
  end).

(** Modelled from the spec: [ResultSet_getDate], see
    [ResultSet_getTimestamp]. *)
Definition ResultSet_getDate (R : ResultSet_S) (columnIndex : Z)
  : outcome sqldate_t :=
  obind (_column "ResultSet_getDate" R columnIndex) (fun v =>
  match v with
  | Some s => Time.Time_toDate (Some s)
  | None => Ok sqldate_zero
  end).

(** Modelled from the spec: [ResultSet_getTime], see
    [ResultSet_getTimestamp]. *)
Definition ResultSet_getTime (R : ResultSet_S) (columnIndex : Z)
  : outcome sqltime_t :=
  obind (_column "ResultSet_getTime" R columnIndex) (fun v =>
  match v with
  | Some s => Time.Time_toTime (Some s)
  | None => Ok sqltime_zero
  end).

(** Modelled from the spec: [ResultSet_getDateTime], see
    [ResultSet_getTimestamp]. *)
Definition ResultSet_getDateTime (R : ResultSet_S) (columnIndex : Z)
  : outcome sqldatetime_t :=
  obind (_column "ResultSet_getDateTime" R columnIndex) (fun v =>
  match v with
  | Some s => Time.Time_toDateTime (Some s)
  | None => Ok sqldatetime_zero
  end).

(** Modelled from the spec: the search behind the ByName getters.
    "Column names are case-sensitive; when duplicate names exist, the
    first matching column (lowest index) wins; lookup failure raises a
    column not found error".  [columnIndex] is the index of the head of
    [names]. *)
Fixpoint _search (columnName : string) (names : list string)
    (columnIndex : Z) : option Z :=
  match names with
  | [] => None
  | n :: rest =>
      if String.eqb columnName n then Some columnIndex
      else _search columnName rest (columnIndex + 1)
  end.

Definition _getIndex (R : ResultSet_S) (columnName : string) : outcome Z :=
  match _search columnName (columns R) 1 with
  | Some i => Ok i
  | None => Throw (SQLException ColumnNotFound columnName)
  end.

(** Modelled from the spec: every ByName getter is the indexed getter at
    the index found for the name. *)
Definition byName {A} (get : ResultSet_S -> Z -> outcome A)
    (R : ResultSet_S) (columnName : string) : outcome A :=
  obind (_getIndex R columnName) (get R).

Definition ResultSet_getStringByName := byName ResultSet_getString.
Definition ResultSet_getIntByName := byName ResultSet_getInt.
Definition ResultSet_getLLongByName := byName ResultSet_getLLong.
Definition ResultSet_getDoubleByName := byName ResultSet_getDouble.
Definition ResultSet_getBlobByName := byName ResultSet_getBlob.
Definition ResultSet_getTimestampByName := byName ResultSet_getTimestamp.
Definition ResultSet_getDateByName := byName ResultSet_getDate.
Definition ResultSet_getTimeByName := byName ResultSet_getTime.
Definition ResultSet_getDateTimeByName := byName ResultSet_getDateTime.
End Getters.
End ResultSet.

(** ** PreparedStatement *)

Module PreparedStatement.
Import ResultSet.

(** [ResultSet_T]: a reference to a [ResultSet] object.  References are
    never reused, so that a reference names one object for good. *)
Definition ResultSet_T : Type := nat.

(** The value handed to a setter, one constructor per setter. *)
Inductive param : Type :=
| VString (x : option string)
| VInt8 (x : Z)
| VUInt8 (x : Z)
| VInt16 (x : Z)
| VUInt16 (x : Z)
| VInt32 (x : Z)
| VUInt32 (x : Z)
| VInt64 (x : Z)
| VUInt64 (x : Z)
| VDouble (x : float)
| VBlob (x : option string) (size : Z)
| VTimestamp (x : Z).

(** What the statement does to the objects it does not implement
    itself, in the order in which it happens. *)
Inductive event : Type :=
| ResultSet_freed (R : ResultSet_T)
| Pop_free
| Pop_set (parameterIndex : Z) (x : param)
| Pop_execute
| Pop_executeQuery
| Pop_rowsChanged
| Pop_parameterCount.

(** The memory around a statement: the live [ResultSet] objects, the
    number of references given out so far, and the history. *)
Record Mem := {
  results : gmap nat ResultSet_S;
  allocated : nat;
  trace : list event
}.

Definition Mem_empty : Mem :=
  {| results := ∅; allocated := 0%nat; trace := [] |}.

Definition log (e : event) (m : Mem) : Mem :=
  {| results := results m; allocated := allocated m;
     trace := trace m ++ [e] |}.

(** Modelled from the spec: [ResultSet_new] ([ResultSet.c] is missing)
    creates an object and returns a reference to it. *)
Definition ResultSet_new (R : ResultSet_S) (m : Mem) : ResultSet_T * Mem :=
  (allocated m,
    {| results := <[allocated m := R]> (results m);
       allocated := S (allocated m);
       trace := trace m |}).

(** Modelled from the spec: [ResultSet_free(T *R)] ([ResultSet.c] is
    missing) "destroys a ResultSet and releases allocated resources";
    as with [FREE] the reference passed by address is cleared, which is
    the first component of the result. *)
Definition ResultSet_free (R : ResultSet_T) (m : Mem)
  : option ResultSet_T * Mem :=
  (None,
    {| results := delete R (results m);
       allocated := allocated m;
       trace := trace m ++ [ResultSet_freed R] |}).

Set Implicit Arguments.
Set Maximal Implicit Insertion.

(** [Pop_T], the operations of a backend ([PreparedStatementDelegate.h]
    is missing; the fields are those [PreparedStatement.c] calls).  [DS]
    is [PreparedStatementDelegate_T], the statement object of the
    backend.  An operation may change the delegate and may throw.
    [executeQuery] returns NULL or the [ResultSet] it has built. *)
Record Pop_T (DS : Type) := {
  free : DS -> outcome unit * DS;
  setString : DS -> Z -> option string -> outcome unit * DS;
  setInt8 : DS -> Z -> Z -> outcome unit * DS;
  setUInt8 : DS -> Z -> Z -> outcome unit * DS;
  setInt16 : DS -> Z -> Z -> outcome unit * DS;
  setUInt16 : DS -> Z -> Z -> outcome unit * DS;
  setInt32 : DS -> Z -> Z -> outcome unit * DS;
  setUInt32 : DS -> Z -> Z -> outcome unit * DS;
  setInt64 : DS -> Z -> Z -> outcome unit * DS;
  setUInt64 : DS -> Z -> Z -> outcome unit * DS;
  setDouble : DS -> Z -> float -> outcome unit * DS;
  setBlob : DS -> Z -> option string -> Z -> outcome unit * DS;
  setTimestamp : DS -> Z -> Z -> outcome unit * DS;
  execute : DS -> outcome unit * DS;
  executeQuery : DS -> outcome (option ResultSet_S) * DS;
  rowsChanged : DS -> outcome Z * DS;
  parameterCount : DS -> outcome Z * DS
}.

Record PreparedStatement_S (DS : Type) := {
  op : Pop_T DS;
  resultSet : option ResultSet_T;
  D : DS
}.

Unset Maximal Implicit Insertion.
Unset Implicit Arguments.

Section Delegate.
Context {DS : Type}.

Definition state : Type := PreparedStatement_S DS * Mem.

(** Code that reads and writes the statement and the memory, and that
    may throw. *)
Definition M (A : Type) : Type := state -> outcome A * state.

Definition ret {A} (a : A) : M A := fun s => (Ok a, s).

Definition bind {A B} (c : M A) (k : A -> M B) : M B := fun s =>
  match c s with
  | (Ok a, s') => k a s'
  | (Throw e, s') => (Throw e, s')
  end.

Definition THROW {A} (k : error_kind) (message : string) : M A := fun s =>
  (Throw (SQLException k message), s).

Notation "x <- c1 ;; c2" := (bind c1 (fun x => c2))
  (at level 100, c1 at next level, right associativity).
Notation "c1 ;; c2" := (bind c1 (fun _ => c2))
  (at level 100, right associativity).

Definition set_resultSet (R : option ResultSet_T) : M unit := fun '(P, m) =>
  (Ok tt, ({| op := op P; resultSet := R; D := D P |}, m)).

(** [P->op->f(P->D, ...)]: the call goes to the delegate, whose new state
    is kept whether it returns or throws. *)
Definition delegate {A} (e : event)
    (f : Pop_T DS -> DS -> outcome A * DS) : M A := fun '(P, m) =>
  let '(r, d) := f (op P) (D P) in
  (r, ({| op := op P; resultSet := resultSet P; D := d |}, log e m)).

(* ------------------------------------------------- Private methods *)

Definition _clearResultSet : M unit := fun '(P, m) =>
  match resultSet P with
  | Some R =>
      let '(R', m') := ResultSet_free R m in
      (Ok tt, ({| op := op P; resultSet := R'; D := D P |}, m'))
  | None => (Ok tt, (P, m))
  end.

(* ----------------------------------------------- Protected methods *)

Definition PreparedStatement_new (d : DS) (o : Pop_T DS)
  : PreparedStatement_S DS :=
  {| op := o; resultSet := None; D := d |}.

(** [FREE( *P)] clears the caller's reference: the statement is gone
    when the delegate's [free] returns.  When it throws, [FREE] is not
    reached. *)
Definition PreparedStatement_free (s : state)
  : outcome unit * (option (PreparedStatement_S DS) * Mem) :=
  match (_clearResultSet ;; delegate Pop_free free) s with
  | (Ok tt, (_, m)) => (Ok tt, (None, m))
  | (Throw e, (P, m)) => (Throw e, (Some P, m))
  end.

(* ------------------------------------------------------ Parameters *)

Definition PreparedStatement_setString (parameterIndex : Z)
    (x : option string) : M unit :=
  delegate (Pop_set parameterIndex (VString x))
    (fun o d => setString o d parameterIndex x).

Definition PreparedStatement_setInt8 (parameterIndex x : Z) : M unit :=
  delegate (Pop_set parameterIndex (VInt8 x))
    (fun o d => setInt8 o d parameterIndex x).

Definition PreparedStatement_setUInt8 (parameterIndex x : Z) : M unit :=
  delegate (Pop_set parameterIndex (VUInt8 x))
    (fun o d => setUInt8 o d parameterIndex x).

Definition PreparedStatement_setInt16 (parameterIndex x : Z) : M unit :=
  delegate (Pop_set parameterIndex (VInt16 x))
    (fun o d => setInt16 o d parameterIndex x).

Definition PreparedStatement_setUInt16 (parameterIndex x : Z) : M unit :=
  delegate (Pop_set parameterIndex (VUInt16 x))
    (fun o d => setUInt16 o d parameterIndex x).

Definition PreparedStatement_setInt32 (parameterIndex x : Z) : M unit :=
  delegate (Pop_set parameterIndex (VInt32 x))
    (fun o d => setInt32 o d parameterIndex x).

Definition PreparedStatement_setUInt32 (parameterIndex x : Z) : M unit :=
  delegate (Pop_set parameterIndex (VUInt32 x))
    (fun o d => setUInt32 o d parameterIndex x).

Definition PreparedStatement_setInt64 (parameterIndex x : Z) : M unit :=
  delegate (Pop_set parameterIndex (VInt64 x))
    (fun o d => setInt64 o d parameterIndex x).

Definition PreparedStatement_setUInt64 (parameterIndex x : Z) : M unit :=
  delegate (Pop_set parameterIndex (VUInt64 x))
    (fun o d => setUInt64 o d parameterIndex x).

Definition PreparedStatement_setDouble (parameterIndex : Z) (x : float)
  : M unit :=
  delegate (Pop_set parameterIndex (VDouble x))
    (fun o d => setDouble o d parameterIndex x).

Definition PreparedStatement_setBlob (parameterIndex : Z)
    (x : option string) (size : Z) : M unit :=
  delegate (Pop_set parameterIndex (VBlob x size))
    (fun o d => setBlob o d parameterIndex x size).

Definition PreparedStatement_setTimestamp (parameterIndex x : Z) : M unit :=
  delegate (Pop_set parameterIndex (VTimestamp x))
    (fun o d => setTimestamp o d parameterIndex x).

(* -------------------------------------------------- Public methods *)

Definition PreparedStatement_execute : M unit :=
  _clearResultSet ;;
  delegate Pop_execute execute.

(** [P->resultSet = P->op->executeQuery(P->D)]: the object the delegate
    has built, if any, is live from here on.  The exception thrown for a
    NULL result is [THROW(SQLException, "PreparedStatement_executeQuery")],
    the execution error of the taxonomy. *)
Definition PreparedStatement_executeQuery : M ResultSet_T :=
  _clearResultSet ;;
  built <- delegate Pop_executeQuery executeQuery ;;
  R <- (fun '(P, m) =>
          match built with
          | Some rs => let '(R, m') := ResultSet_new rs m in
                       (Ok (Some R), (P, m'))
          | None => (Ok None, (P, m))
          end) ;;
  set_resultSet R ;;
  match R with
  | None => THROW ExecutionError "PreparedStatement_executeQuery"
  | Some R => ret R
  end.

Definition PreparedStatement_rowsChanged : M Z :=
  delegate Pop_rowsChanged rowsChanged.

(* ------------------------------------------------------ Properties *)

Definition PreparedStatement_getParameterCount : M Z :=
  delegate Pop_parameterCount parameterCount.

(* ------------------------------------------- Sequences of calls *)

(** A call a client makes on a statement. *)
Inductive call : Type :=
| Set_ (parameterIndex : Z) (x : param)
| Execute
| ExecuteQuery
| RowsChanged
| GetParameterCount.

Definition PreparedStatement_set (parameterIndex : Z) (x : param)
  : M unit :=
  match x with
  | VString x => PreparedStatement_setString parameterIndex x
  | VInt8 x => PreparedStatement_setInt8 parameterIndex x
  | VUInt8 x => PreparedStatement_setUInt8 parameterIndex x
  | VInt16 x => PreparedStatement_setInt16 parameterIndex x
  | VUInt16 x => PreparedStatement_setUInt16 parameterIndex x
  | VInt32 x => PreparedStatement_setInt32 parameterIndex x
  | VUInt32 x => PreparedStatement_setUInt32 parameterIndex x
  | VInt64 x => PreparedStatement_setInt64 parameterIndex x
  | VUInt64 x => PreparedStatement_setUInt64 parameterIndex x
  | VDouble x => PreparedStatement_setDouble parameterIndex x
  | VBlob x size => PreparedStatement_setBlob parameterIndex x size
  | VTimestamp x => PreparedStatement_setTimestamp parameterIndex x
  end.

(** The client goes on with the statement whether the call returned or
    threw (TRY ... CATCH around each call). *)
Definition after {A} (c : M A) (s : state) : state := snd (c s).

Definition perform (c : call) : state -> state :=
  match c with
  | Set_ parameterIndex x => after (PreparedStatement_set parameterIndex x)
  | Execute => after PreparedStatement_execute
  | ExecuteQuery => after PreparedStatement_executeQuery
  | RowsChanged => after PreparedStatement_rowsChanged
  | GetParameterCount => after PreparedStatement_getParameterCount
  end.

Definition run (cs : list call) (s : state) : state :=
  foldl (fun s c => perform c s) s cs.

(** The references the statement holds: none or one. *)
Definition held (P : PreparedStatement_S DS) : gset nat :=
  match resultSet P with
  | Some R => {[ R ]}
  | None => ∅
  end.

(** What [_clearResultSet] leaves in the history. *)
Definition releases (P : PreparedStatement_S DS) : list event :=
  match resultSet P with
  | Some R => [ResultSet_freed R]
  | None => []
  end.

(** The statement and the memory once [_clearResultSet] is through. *)
Definition cleared (P : PreparedStatement_S DS) : PreparedStatement_S DS :=
  {| op := op P; resultSet := None; D := D P |}.

Definition released (P : PreparedStatement_S DS) (m : Mem) : Mem :=
  {| results := match resultSet P with
                | Some R => delete R (results m)
                | None => results m
                end;
     allocated := allocated m;
     trace := trace m ++ releases P |}.

(** The live [ResultSet] objects are exactly those the statement holds,
    and every reference given out is below the counter. *)
Definition consistent (s : state) : Prop :=
  dom (results (snd s)) = held (fst s) /\
  forall R, R ∈ dom (results (snd s)) -> (R < allocated (snd s))%nat.

(** A setter does nothing but hand its arguments to [f], the delegate's
    operation: outcome and delegate are those of [f], the result set
    held and the live objects are untouched, and the history grows by
    this one call [e]. *)
Definition forwards {A} (c : M A) (e : event)
    (f : Pop_T DS -> DS -> outcome A * DS) : Prop :=
  forall (P : PreparedStatement_S DS) (m : Mem),
    c (P, m) =
      (fst (f (op P) (D P)),
        ({| op := op P; resultSet := resultSet P;
            D := snd (f (op P) (D P)) |},
         {| results := results m; allocated := allocated m;
            trace := trace m ++ [e] |})).

End Delegate.
End PreparedStatement.

(** ** Instances to run the model on

    A small conversion table and an in-memory backend.  They stand in for
    the parts outside the sources and are used on concrete inputs only. *)

Module Demo.
Import ResultSet PreparedStatement.

Definition digit (a : ascii) : option Z :=
  let n := Z.of_nat (nat_of_ascii a) in
  if (48 <=? n) && (n <=? 57) then Some (n - 48) else None.

Fixpoint digits (s : string) (acc : Z) : option Z :=
  match s with
  | EmptyString => Some acc
  | String a rest =>
      match digit a with
      | Some d => digits rest (10 * acc + d)
      | None => None
      end
  end.

(** An optional minus sign and at least one decimal digit. *)
Definition decimal (s : string) : option Z :=
  match s with
  | EmptyString => None
  | String "-"%char EmptyString => None
  | String "-"%char rest => Z.opp <$> digits rest 0
  | _ => digits s 0
  end.

Definition within (lo hi : Z) (r : option Z) : option Z :=
  n ← r; if (lo <=? n) && (n <=? hi) then Some n else None.

(** [len] digits of [s] from position [start]. *)
Definition field (s : string) (start len : nat) : option Z :=
  let t := substring start len s in
  if (String.length t =? len)%nat && negb (len =? 0)%nat
  then digits t 0 else None.

Definition mark (s : string) (at_ : nat) (c : string) : option unit :=
  if String.eqb (substring at_ 1 s) c then Some tt else None.

Definition date_at (s : string) (start : nat) : option sqldate_t :=
  y ← field s start 4; _ ← mark s (start + 4) "-";
  m ← field s (start + 5) 2; _ ← mark s (start + 7) "-";
  d ← field s (start + 8) 2;
  if (1 <=? m) && (m <=? 12) && (1 <=? d) && (d <=? 31)
  then Some {| year := y; month := m; day := d |} else None.

Definition time_at (s : string) (start : nat) : option sqltime_t :=
  h ← field s start 2; _ ← mark s (start + 2) ":";
  m ← field s (start + 3) 2; _ ← mark s (start + 5) ":";
  sc ← field s (start + 6) 2;
  if (h <=? 23) && (m <=? 59) && (sc <=? 60)
  then Some {| hour := h; minute := m; second := sc; usec := 0 |}
  else None.

Definition whole (s : string) (len : nat) : option unit :=
  if (String.length s =? len)%nat then Some tt else None.

Definition datetime_of (s : string) : option sqldatetime_t :=
  _ ← whole s 19; d ← date_at s 0; _ ← mark s 10 " "; t ← time_at s 11;
  Some {| date := d; time := t |}.

(** Days between 1970-01-01 and the given day of the civil calendar. *)
Definition days_from_civil (y m d : Z) : Z :=
  let y := if m <=? 2 then y - 1 else y in
  let era := y / 400 in
  let yoe := y - era * 400 in
  let doy := (153 * (if m <=? 2 then m + 9 else m - 3) + 2) / 5 + d - 1 in
  let doe := yoe * 365 + yoe / 4 - yoe / 100 + doy in
  era * 146097 + doe - 719468.

Definition timestamp_of (s : string) : option Z :=
  dt ← datetime_of s;
  Some (days_from_civil (year (date dt)) (month (date dt)) (day (date dt))
          * 86400
        + hour (time dt) * 3600 + minute (time dt) * 60 + second (time dt)).

(** Plain decimal numbers, and the shapes "YYYY-MM-DD", "HH:MM:SS" and
    "YYYY-MM-DD HH:MM:SS", the local zone being UTC. *)
Definition conversions : Conversions := {|
  Str_parseInt s := within (- 2 ^ 31) (2 ^ 31 - 1) (decimal s);
  Str_parseLLong s := within (- 2 ^ 63) (2 ^ 63 - 1) (decimal s);
  Str_parseDouble s :=
    n ← within 0 (2 ^ 53) (decimal s); Some (PrimFloat.of_uint63 (Uint63.of_Z n));
  parseTimestamp := timestamp_of;
  parseDate s := _ ← whole s 10; date_at s 0;
  parseTime s := _ ← whole s 8; time_at s 0;
  parseDateTime := datetime_of
|}.

(** An in-memory backend: it counts its parameters, records what is
    bound, and answers the queries with prepared replies, NULL once they
    are used up. *)
Record Backend := {
  parameters : Z;
  bound : list (Z * param);
  replies : list (option ResultSet_S);
  changed : Z
}.

Definition Backend_bind (d : Backend) (parameterIndex : Z) (x : param)
  : outcome unit * Backend :=
  if (1 <=? parameterIndex) && (parameterIndex <=? parameters d) then
    (Ok tt,
      {| parameters := parameters d;
         bound := (parameterIndex, x) :: bound d;
         replies := replies d; changed := changed d |})
  else (Throw (SQLException OutOfRange "parameter index"), d).

Definition Backend_executeQuery (d : Backend)
  : outcome (option ResultSet_S) * Backend :=
  match replies d with
  | [] => (Ok None, d)
  | r :: rest =>
      (Ok r,
        {| parameters := parameters d; bound := bound d;
           replies := rest; changed := 0 |})
  end.

Definition Backend_op : Pop_T Backend := {|
  free d := (Ok tt, d);
  setString d i x := Backend_bind d i (VString x);
  setInt8 d i x := Backend_bind d i (VInt8 x);
  setUInt8 d i x := Backend_bind d i (VUInt8 x);
  setInt16 d i x := Backend_bind d i (VInt16 x);
  setUInt16 d i x := Backend_bind d i (VUInt16 x);
  setInt32 d i x := Backend_bind d i (VInt32 x);
  setUInt32 d i x := Backend_bind d i (VUInt32 x);
  setInt64 d i x := Backend_bind d i (VInt64 x);
  setUInt64 d i x := Backend_bind d i (VUInt64 x);
  setDouble d i x := Backend_bind d i (VDouble x);
  setBlob d i x size := Backend_bind d i (VBlob x size);
  setTimestamp d i x := Backend_bind d i (VTimestamp x);
  execute d := (Ok tt, d);
  executeQuery := Backend_executeQuery;
  rowsChanged d := (Ok (changed d), d);
  parameterCount d := (Ok (parameters d), d)
|}.

(** The result of "SELECT id, label ...": one row (7, "ok"). *)
Definition one_row : ResultSet_S :=
  {| columns := ["id"; "label"]; current := None;
     pending := [Row [Some "7"; Some "ok"]] |}.

(** A result without rows. *)
Definition no_rows : ResultSet_S :=
  {| columns := ["id"; "label"]; current := None; pending := [] |}.

(** Columns "a", "b", "a", positioned on a row with a NULL in "b". *)
Definition abA : ResultSet_S :=
  {| columns := ["a"; "b"; "a"];
     current := Some [Some "1"; None; Some "3"];
     pending := [] |}.

(** A statement with two parameters whose first query yields [one_row]
    and whose second query yields no result set at all. *)
Definition statement : PreparedStatement_S Backend :=
  PreparedStatement_new
    {| parameters := 2; bound := []; replies := [Some one_row; None];
       changed := 0 |}
    Backend_op.
End Demo.

(** ** Reading the history of a statement *)

Module History.
Import ResultSet PreparedStatement.

(** The [ResultSet] references released so far, oldest first. *)
Definition freed (t : list event) : list ResultSet_T :=
  omap (fun e => match e with ResultSet_freed R => Some R | _ => None end) t.

Definition is_pop (e : event) : bool :=
  match e with ResultSet_freed _ => false | _ => true end.

(** The calls made to the delegate so far, oldest first. *)
Definition pops (t : list event) : list event := List.filter is_pop t.

(** The delegate operation a client call ends in. *)
Definition pop_of (c : call) : event :=
  match c with
  | Set_ parameterIndex x => Pop_set parameterIndex x
  | Execute => Pop_execute
  | ExecuteQuery => Pop_executeQuery
  | RowsChanged => Pop_rowsChanged
  | GetParameterCount => Pop_parameterCount
  end.

(** The calls that do not execute the statement. *)
Definition keeps_result (c : call) : bool :=
  match c with
  | Execute | ExecuteQuery => false
  | _ => true
  end.

Section Accounts.
Context {DS : Type}.

(** The delegate after its part in the call [c]: the operation of the
    same name in the table [o], applied to the delegate [d] with the
    index and the value of the call. *)
Definition Pop_step (o : Pop_T DS) (d : DS) (c : call) : DS :=
  match c with
  | Set_ i (VString x) => snd (setString o d i x)
  | Set_ i (VInt8 x) => snd (setInt8 o d i x)
  | Set_ i (VUInt8 x) => snd (setUInt8 o d i x)
  | Set_ i (VInt16 x) => snd (setInt16 o d i x)
  | Set_ i (VUInt16 x) => snd (setUInt16 o d i x)
  | Set_ i (VInt32 x) => snd (setInt32 o d i x)
  | Set_ i (VUInt32 x) => snd (setUInt32 o d i x)
  | Set_ i (VInt64 x) => snd (setInt64 o d i x)
  | Set_ i (VUInt64 x) => snd (setUInt64 o d i x)
  | Set_ i (VDouble x) => snd (setDouble o d i x)
  | Set_ i (VBlob x size) => snd (setBlob o d i x size)
  | Set_ i (VTimestamp x) => snd (setTimestamp o d i x)
  | Execute => snd (execute o d)
  | ExecuteQuery => snd (executeQuery o d)
  | RowsChanged => snd (rowsChanged o d)
  | GetParameterCount => snd (parameterCount o d)
  end.

(** Every reference given out is accounted for: it is the one the
    statement holds, or it has been released, and then once only and for
    good. *)
Definition accounted (s : @state DS) : Prop :=
  NoDup (freed (trace (snd s))) /\
  (forall R : nat, (R < allocated (snd s))%nat <->
     resultSet (fst s) = Some R \/ R ∈ freed (trace (snd s))) /\
  (forall R : nat, resultSet (fst s) = Some R ->
     R ∉ freed (trace (snd s))).
End Accounts.
End History.

(** ** filterh: the filter for header files

    The scanner of [filterh.l] "filters text between //<< and //>> or
    from //<< and to eof; '#' may be used instead of '//'".  Its rules are
    embedded with the matching discipline of lex: among the rules of the
    current start condition the longest match wins, the earlier rule on a
    tie, and a character no rule matches is copied (the default rule).
    The input is a list of bytes. *)

Module Filterh.

Definition text : Type := list ascii.

Definition NL : ascii := "010"%char.
Definition NUL : ascii := "000"%char.

Definition chars (s : string) : text := list_ascii_of_string s.

(** The start conditions: [%x CPP BPP]. *)
Inductive condition : Set := INITIAL | CPP | BPP.

(** What a rule does with its match: nothing ([;]), [BEGIN(c)], or
    [fprintf(yyout, "%s", yytext)]. *)
Inductive action : Set :=
| Skip
| BEGIN (c : condition)
| Print.

(** [s] begins with [p]. *)
Fixpoint starts (p s : text) : bool :=
  match p, s with
  | [], _ => true
  | a :: p, b :: s => Ascii.eqb a b && starts p s
  | _ :: _, [] => false
  end.

(** [p] occurs somewhere in [s]. *)
Fixpoint occurs (p s : text) : bool :=
  match s with
  | [] => starts p []
  | _ :: s' => starts p s || occurs p s'
  end.

(** What [.*"\n"] runs over: the characters before the first newline,
    when there is a newline. *)
Fixpoint upto_newline (s : text) : option text :=
  match s with
  | [] => None
  | c :: s' =>
      if Ascii.eqb c NL then Some []
      else match upto_newline s' with
           | Some l => Some (c :: l)
           | None => None
           end
  end.

(** The patterns; each gives the length of its match at the head of [s],
    if it matches.  [line_with word] is [^.*"word".*"\n"], to be tried at
    the beginning of a line only. *)
Definition line_with (word : text) (bol : bool) (s : text) : option nat :=
  if bol then
    match upto_newline s with
    | Some l => if occurs word l then Some (S (length l)) else None
    | None => None
    end
  else None.

(** ["p"]. *)
Definition literal (p s : text) : option nat :=
  if starts p s then Some (length p) else None.

(** ["p".*"\n"]. *)
Definition literal_line (p s : text) : option nat :=
  if starts p s then
    match upto_newline s with
    | Some l => Some (S (length l))
    | None => None
    end
  else None.

(** [.]: any character but the newline. *)
Definition dot (s : text) : option nat :=
  match s with
  | c :: _ => if Ascii.eqb c NL then None else Some 1%nat
  | [] => None
  end.

(** [[\000-\377]]: any character. *)
Definition any (s : text) : option nat :=
  match s with
  | _ :: _ => Some 1%nat
  | [] => None
  end.

(** The rules active in a start condition, in the order of the file.
    [CPP] and [BPP] are exclusive: the rules without a start condition
    belong to [INITIAL] only. *)
Definition rules (st : condition) (bol : bool) (s : text)
  : list (option nat * action) :=
  match st with
  | INITIAL =>
      [ (line_with (chars "@author") bol s, Skip);
        (line_with (chars "@version") bol s, Skip);
        (literal (chars "//<<") s, BEGIN CPP);
        (literal (chars "#<<") s, BEGIN BPP);
        (dot s, Print) ]
  | CPP =>
      [ (literal_line (chars "//>>") s, BEGIN INITIAL);
        (any s, Skip) ]
  | BPP =>
      [ (literal_line (chars "#>>") s, BEGIN INITIAL);
        (any s, Skip) ]
  end.

(** The longest match, and the earlier rule among equally long ones. *)
Fixpoint choose (rs : list (option nat * action)) : option (nat * action) :=
  match rs with
  | [] => None
  | (None, _) :: rs => choose rs
  | (Some n, a) :: rs =>
      match choose rs with
      | Some (n', a') => if (n <? n')%nat then Some (n', a') else Some (n, a)
      | None => Some (n, a)
      end
  end.

(** What ["%s"] prints of a text: the characters before the first NUL. *)
Fixpoint c_str (t : text) : text :=
  match t with
  | [] => []
  | c :: t => if Ascii.eqb c NUL then [] else c :: c_str t
  end.

(** The next match is anchored at the beginning of a line when the last
    character matched was a newline. *)
Definition ends_line (t : text) : bool :=
  match last t with
  | Some c => Ascii.eqb c NL
  | None => false
  end.

(** [yylex] until the end of the input; the result is what was written to
    [yyout].  A match has at least one character, so the scanner goes on
    behind it with the [n - 1] characters after the first one dropped;
    [fuel] bounds the number of matches, and the length of the input is
    always enough. *)
Fixpoint yylex (fuel : nat) (st : condition) (bol : bool) (s : text) : text :=
  match fuel, s with
  | _, [] => []
  | O, _ :: _ => []
  | S fuel, c :: s' =>
      match choose (rules st bol s) with
      | Some (n, Skip) =>
          yylex fuel st (ends_line (take n s)) (drop (n - 1) s')
      | Some (n, BEGIN st') =>
          yylex fuel st' (ends_line (take n s)) (drop (n - 1) s')
      | Some (n, Print) =>
          c_str (take n s)
            ++ yylex fuel st (ends_line (take n s)) (drop (n - 1) s')
      | None =>
          c :: yylex fuel st (Ascii.eqb c NL) s'
      end
  end.

(** The program: scan the whole input, starting at the beginning of a
    line in [INITIAL]. *)
Definition filterh (input : text) : text :=
  yylex (length input) INITIAL true input.

(** The scanner with the fuel its input calls for. *)
Definition scan (st : condition) (bol : bool) (s : text) : text :=
  yylex (length s) st bol s.

(** The two comment styles, with the markers that open and close a
    filtered block and the start condition inside one. *)
Inductive style : Set := Slashes | Hash.

Definition opener (k : style) : text :=
  match k with
  | Slashes => chars "//<<"
  | Hash => chars "#<<"
  end.

Definition closer (k : style) : text :=
  match k with
  | Slashes => chars "//>>"
  | Hash => chars "#>>"
  end.

Definition inside (k : style) : condition :=
  match k with
  | Slashes => CPP
  | Hash => BPP
  end.

(** A text without an opening marker and without NUL. *)
Definition unmarked (t : text) : Prop :=
  occurs (chars "//<<") t = false /\
  occurs (chars "#<<") t = false /\
  NUL ∉ t.

(** A text without the words that delete a line. *)
Definition untagged (t : text) : Prop :=
  occurs (chars "@author") t = false /\
  occurs (chars "@version") t = false.

(** A text made of whole lines. *)
Definition whole_lines (t : text) : Prop :=
  t = [] \/ last t = Some NL.

(** At the head of [s] no rule of [INITIAL] but the last one matches,
    even at the beginning of a line. *)
Definition quiet (s : text) : Prop :=
  line_with (chars "@author") true s = None /\
  line_with (chars "@version") true s = None /\
  starts (chars "//<<") s = false /\
  starts (chars "#<<") s = false.
End Filterh.

(** * Properties *)

Import ResultSet PreparedStatement.

(** ** Time *)

Section TimeFacts.
Context `{Conversions}.

(** C3.  On a NULL input each of the entry points [Time_toTimestamp],
    [Time_toDate], [Time_toTime] and [Time_toDateTime] raises a conversion
    error; none returns a zero or default value. *)
Theorem Time_NULL_input :
  raised ConversionError (Time.Time_toTimestamp None) /\
  raised ConversionError (Time.Time_toDate None) /\
  raised ConversionError (Time.Time_toTime None) /\
  raised ConversionError (Time.Time_toDateTime None).
Proof.
  repeat split; eexists; reflexivity.
Qed.
End TimeFacts.

(** ** ResultSet *)

Section ResultSetFacts.
Context `{Conversions}.

Lemma _column_out_of_range who R columnIndex :
  inRange R columnIndex = false ->
  _column who R columnIndex = Throw (SQLException OutOfRange who).
Proof. intros Hr. unfold _column. now rewrite Hr. Qed.

Lemma inRange_false R columnIndex :
  columnIndex < 1 \/ ResultSet_getColumnCount R < columnIndex ->
  inRange R columnIndex = false.
Proof.
  intros Hout. unfold inRange.
  apply andb_false_iff. rewrite !Z.leb_gt. lia.
Qed.

(** The value read does not depend on the getter that reads it. *)
Lemma _column_value who who' R columnIndex v :
  _column who R columnIndex = Ok v -> _column who' R columnIndex = Ok v.
Proof.
  unfold _column. destruct (inRange R columnIndex); [|discriminate].
  destruct (current R) as [r|]; [|discriminate].
  destruct (r !! Z.to_nat (columnIndex - 1)); [trivial|discriminate].
Qed.

Lemma obind_out_of_range {A B} who (k : A -> outcome B)
    (get : outcome A) :
  get = Throw (SQLException OutOfRange who) ->
  raised OutOfRange (obind get k).
Proof. intros ->. now exists who. Qed.

(** C4.  With a column index outside [1, columnCount] every indexed
    getter raises OutOfRange, whatever the rows of the set are: the
    index is checked before a row is looked at. *)
Theorem indexed_getters_check_range (R : ResultSet_S) (columnIndex : Z) :
  columnIndex < 1 \/ ResultSet_getColumnCount R < columnIndex ->
  raised OutOfRange (ResultSet_getString R columnIndex) /\
  raised OutOfRange (ResultSet_getInt R columnIndex) /\
  raised OutOfRange (ResultSet_getLLong R columnIndex) /\
  raised OutOfRange (ResultSet_getDouble R columnIndex) /\
  raised OutOfRange (ResultSet_getBlob R columnIndex) /\
  raised OutOfRange (ResultSet_getTimestamp R columnIndex) /\
  raised OutOfRange (ResultSet_getDate R columnIndex) /\
  raised OutOfRange (ResultSet_getTime R columnIndex) /\
  raised OutOfRange (ResultSet_getDateTime R columnIndex) /\
  raised OutOfRange (ResultSet_getColumnSize R columnIndex) /\
  raised OutOfRange (ResultSet_isnull R columnIndex).
Proof.
  intros Hout. apply inRange_false in Hout.
  repeat split;
    (eapply obind_out_of_range || (eexists; unfold ResultSet_getString));
    now apply _column_out_of_range.
Qed.

(** C5.  On a column of the current row that [ResultSet_isnull] reports
    as SQL NULL, [getString] returns NULL, [getInt], [getLLong] and
    [getDouble] return zero and [getBlob] returns NULL with size 0; none
    of them raises. *)
Theorem getters_on_SQL_NULL (R : ResultSet_S) (columnIndex : Z) :
  ResultSet_isnull R columnIndex = Ok true ->
  ResultSet_getString R columnIndex = Ok None /\
  ResultSet_getInt R columnIndex = Ok 0 /\
  ResultSet_getLLong R columnIndex = Ok 0 /\
  ResultSet_getDouble R columnIndex = Ok 0%float /\
  ResultSet_getBlob R columnIndex = Ok (None, 0).
Proof.
  unfold ResultSet_isnull. intros Hnull.
  destruct (_column "ResultSet_isnull" R columnIndex) as [[s|]|e] eqn:Hc;
    simpl in Hnull; try discriminate.
  unfold ResultSet_getString, ResultSet_getInt, ResultSet_getLLong,
    ResultSet_getDouble, ResultSet_getBlob.
  repeat split;
    now rewrite (_column_value "ResultSet_isnull" _ R columnIndex None Hc).
Qed.

Lemma ResultSet_next_exhausted R :
  pending R = [] ->
  fst (ResultSet_next R) = Ok false /\
  pending (snd (ResultSet_next R)) = [].
Proof. intros Hp. unfold ResultSet_next. now rewrite Hp. Qed.

Lemma ResultSet_next_false R :
  fst (ResultSet_next R) = Ok false -> pending R = [].
Proof.
  unfold ResultSet_next.
  destruct (pending R) as [|[r|message] rest]; simpl; congruence.
Qed.

Lemma nexts_exhausted n : forall R,
  pending R = [] ->
  pending (nexts n R) = [] /\ fst (ResultSet_next (nexts n R)) = Ok false.
Proof.
  induction n as [|n IH]; intros R Hp; simpl.
  - split; [assumption|]. now apply ResultSet_next_exhausted.
  - apply IH. now apply ResultSet_next_exhausted.
Qed.

(** C6.  [ResultSet_next] returns false when no row is left, on the
    first call for an empty set too; once it has returned false, every
    later call returns false again and raises nothing; and when it
    raises, the backend has reported a failed access: the error is a
    database access error, never the mere end of the rows. *)
Theorem next_at_the_end (R : ResultSet_S) :
  (pending R = [] -> fst (ResultSet_next R) = Ok false) /\
  (fst (ResultSet_next R) = Ok false ->
   forall n, fst (ResultSet_next (nexts n (snd (ResultSet_next R))))
             = Ok false) /\
  (forall e, fst (ResultSet_next R) = Throw e ->
   exists message rest,
     pending R = Failure message :: rest /\
     e = SQLException DatabaseAccessError message).
Proof.
  split; [|split].
  - intros Hp. now apply ResultSet_next_exhausted.
  - intros Hf n. apply ResultSet_next_false in Hf.
    apply nexts_exhausted. now apply ResultSet_next_exhausted.
  - intros e. unfold ResultSet_next.
    destruct (pending R) as [|[r|message] rest]; simpl; try discriminate.
    intros [= <-]. now exists message, rest.
Qed.

Lemma _search_found columnName : forall names start i,
  _search columnName names start = Some i ->
  start <= i < start + Z.of_nat (length names) /\
  names !! Z.to_nat (i - start) = Some columnName /\
  forall j, start <= j < i ->
            names !! Z.to_nat (j - start) <> Some columnName.
Proof.
  induction names as [|n rest IH]; intros start i; simpl; [discriminate|].
  destruct (String.eqb_spec columnName n) as [->|Hne].
  - intros [= <-]. rewrite Z.sub_diag. simpl.
    repeat split; try lia.
  - intros Hs. destruct (IH _ _ Hs) as (Hrange & Hat & Hbefore).
    assert (Hi : Z.to_nat (i - start) = S (Z.to_nat (i - (start + 1))))
      by lia.
    rewrite Hi. simpl. repeat split; try lia; [assumption|].
    intros j Hj. destruct (Z.eq_dec j start) as [->|Hjs].
    + rewrite Z.sub_diag. simpl. congruence.
    + assert (Hjn : Z.to_nat (j - start) = S (Z.to_nat (j - (start + 1))))
        by lia.
      rewrite Hjn. simpl. apply Hbefore. lia.
Qed.

Lemma _search_missing columnName : forall names start,
  _search columnName names start = None <-> ~ In columnName names.
Proof.
  induction names as [|n rest IH]; intros start; simpl.
  - tauto.
  - destruct (String.eqb_spec columnName n) as [->|Hne].
    + split; [discriminate|]. tauto.
    + rewrite IH. split; [intros Hn [He|Hi]; congruence|tauto].
Qed.

Lemma _getIndex_inRange R columnName i :
  _getIndex R columnName = Ok i -> inRange R i = true.
Proof.
  unfold _getIndex.
  destruct (_search columnName (columns R) 1) as [i'|] eqn:Hs;
    [|discriminate].
  intros [= <-]. apply _search_found in Hs as (Hrange & _).
  unfold inRange, ResultSet_getColumnCount.
  apply andb_true_iff. rewrite !Z.leb_le. lia.
Qed.

Lemma byName_found {A} (get : ResultSet_S -> Z -> outcome A) R name i :
  _getIndex R name = Ok i -> byName get R name = get R i.
Proof. intros Hi. unfold byName. now rewrite Hi. Qed.

Lemma byName_missing {A} (get : ResultSet_S -> Z -> outcome A) R name :
  ~ In name (columns R) -> raised ColumnNotFound (byName get R name).
Proof.
  intros Hm. apply _search_missing with (start := 1) in Hm.
  unfold byName, _getIndex. rewrite Hm. now exists name.
Qed.

(** C7.  A ByName getter looks the name up by exact, case-sensitive
    comparison.  When the name is found at index [i], the column [i]
    bears exactly that name, no column before [i] does, and the getter
    returns what the indexed getter returns at [i].  A name borne by
    some column is found.  A name borne by no column makes every ByName
    getter raise ColumnNotFound, which is not the OutOfRange error of
    an invalid index. *)
Theorem by_name_lookup (R : ResultSet_S) (columnName : string) :
  (forall i, _getIndex R columnName = Ok i ->
     ResultSet_getColumnName R i = Some columnName /\
     (forall j, 1 <= j < i ->
                ResultSet_getColumnName R j <> Some columnName) /\
     ResultSet_getStringByName R columnName = ResultSet_getString R i /\
     ResultSet_getIntByName R columnName = ResultSet_getInt R i /\
     ResultSet_getLLongByName R columnName = ResultSet_getLLong R i /\
     ResultSet_getDoubleByName R columnName = ResultSet_getDouble R i /\
     ResultSet_getBlobByName R columnName = ResultSet_getBlob R i /\
     ResultSet_getTimestampByName R columnName
       = ResultSet_getTimestamp R i /\
     ResultSet_getDateByName R columnName = ResultSet_getDate R i /\
     ResultSet_getTimeByName R columnName = ResultSet_getTime R i /\
     ResultSet_getDateTimeByName R columnName
       = ResultSet_getDateTime R i) /\
  (In columnName (columns R) -> exists i, _getIndex R columnName = Ok i) /\
  (~ In columnName (columns R) ->
     raised ColumnNotFound (ResultSet_getStringByName R columnName) /\
     raised ColumnNotFound (ResultSet_getIntByName R columnName) /\
     raised ColumnNotFound (ResultSet_getLLongByName R columnName) /\
     raised ColumnNotFound (ResultSet_getDoubleByName R columnName) /\
     raised ColumnNotFound (ResultSet_getBlobByName R columnName) /\
     raised ColumnNotFound (ResultSet_getTimestampByName R columnName) /\
     raised ColumnNotFound (ResultSet_getDateByName R columnName) /\
     raised ColumnNotFound (ResultSet_getTimeByName R columnName) /\
     raised ColumnNotFound (ResultSet_getDateTimeByName R columnName)) /\
  ColumnNotFound <> OutOfRange.
Proof.
  split; [|split; [|split]].
  - intros i Hi. pose proof (_getIndex_inRange _ _ _ Hi) as Hr.
    pose proof Hi as Hs. unfold _getIndex in Hs.
    destruct (_search columnName (columns R) 1) as [i'|] eqn:Hf;
      [|discriminate].
    injection Hs as ->.
    apply _search_found in Hf as (Hrange & Hat & Hbefore).
    split; [unfold ResultSet_getColumnName; now rewrite Hr|].
    split.
    + intros j Hj. unfold ResultSet_getColumnName.
      destruct (inRange R j); [|discriminate]. now apply Hbefore.
    + repeat split; now apply byName_found.
  - intros Hin. unfold _getIndex.
    destruct (_search columnName (columns R) 1) as [i|] eqn:Hf;
      [now exists i|].
    now apply _search_missing in Hf.
  - intros Hm. repeat split; now apply byName_missing.
  - discriminate.
Qed.
End ResultSetFacts.

(** The worked cases of the interface: among the columns "a", "b", "a"
    the name "a" reads column 1, never column 3, and "A" names no
    column. *)
Example by_name_duplicates :
  ResultSet_getStringByName Demo.abA "a" = Ok (Some "1") /\
  ResultSet_getString Demo.abA 3 = Ok (Some "3") /\
  ResultSet_getStringByName Demo.abA "A"
    = Throw (SQLException ColumnNotFound "A") /\
  ResultSet_getString Demo.abA 4
    = Throw (SQLException OutOfRange "ResultSet_getString").
Proof. repeat split. Qed.

(** An empty set answers false at once and keeps doing so; a failing
    backend makes [ResultSet_next] raise. *)
Example next_examples :
  fst (ResultSet_next Demo.no_rows) = Ok false /\
  fst (ResultSet_next (nexts 3 Demo.no_rows)) = Ok false /\
  fst (ResultSet_next Demo.one_row) = Ok true /\
  fst (ResultSet_next (nexts 1 Demo.one_row)) = Ok false /\
  fst (ResultSet_next
         {| columns := ["a"]; current := None;
            pending := [Failure "connection lost"] |})
    = Throw (SQLException DatabaseAccessError "connection lost").
Proof. repeat split. Qed.

(** C4 at column 4 of a set with three columns. *)
Lemma indexed_getters_check_range_witness :
  (4 < 1 \/ ResultSet_getColumnCount Demo.abA < 4) /\
  raised OutOfRange (ResultSet_getString Demo.abA 4) /\
  raised OutOfRange (@ResultSet_getInt Demo.conversions Demo.abA 4) /\
  raised OutOfRange (@ResultSet_isnull Demo.abA 4).
Proof.
  assert (Hout : 4 < 1 \/ ResultSet_getColumnCount Demo.abA < 4)
    by (right; reflexivity).
  split; [exact Hout|].
  pose proof (@indexed_getters_check_range Demo.conversions Demo.abA 4 Hout)
    as G.
  repeat split; apply G.
Defined.

(** C5 at the NULL in column "b". *)
Lemma getters_on_SQL_NULL_witness :
  ResultSet_isnull Demo.abA 2 = Ok true /\
  ResultSet_getString Demo.abA 2 = Ok None /\
  @ResultSet_getInt Demo.conversions Demo.abA 2 = Ok 0 /\
  ResultSet_getBlob Demo.abA 2 = Ok (None, 0).
Proof.
  pose proof (@getters_on_SQL_NULL Demo.conversions Demo.abA 2 eq_refl) as G.
  repeat split; apply G.
Defined.

(** ** PreparedStatement *)

Section PreparedStatementFacts.
Context {DS : Type}.
Implicit Types (P : PreparedStatement_S DS) (m : Mem) (s : @state DS).

Lemma _clearResultSet_eq P m :
  _clearResultSet (P, m) = (Ok tt, (cleared P, released P m)).
Proof.
  destruct P as [o [R|] d], m as [rs n t];
    unfold _clearResultSet, cleared, released, releases; simpl;
    [reflexivity|].
  now rewrite app_nil_r.
Qed.

Lemma delegate_eq {A} e (f : Pop_T DS -> DS -> outcome A * DS) P m :
  delegate e f (P, m) =
    (fst (f (op P) (D P)),
      ({| op := op P; resultSet := resultSet P;
          D := snd (f (op P) (D P)) |}, log e m)).
Proof. unfold delegate. now destruct (f (op P) (D P)). Qed.

Lemma PreparedStatement_execute_eq P m :
  PreparedStatement_execute (P, m) =
    (fst (execute (op P) (D P)),
      ({| op := op P; resultSet := None;
          D := snd (execute (op P) (D P)) |},
       log Pop_execute (released P m))).
Proof.
  unfold PreparedStatement_execute, bind.
  rewrite _clearResultSet_eq, delegate_eq. reflexivity.
Qed.

Lemma PreparedStatement_executeQuery_eq P m :
  PreparedStatement_executeQuery (P, m) =
    let m1 := log Pop_executeQuery (released P m) in
    match executeQuery (op P) (D P) with
    | (Ok (Some rs), d) =>
        (Ok (allocated m),
          ({| op := op P; resultSet := Some (allocated m); D := d |},
           {| results := <[allocated m := rs]> (results m1);
              allocated := S (allocated m);
              trace := trace m1 |}))
    | (Ok None, d) =>
        (Throw (SQLException ExecutionError
                  "PreparedStatement_executeQuery"),
          ({| op := op P; resultSet := None; D := d |}, m1))
    | (Throw e, d) =>
        (Throw e, ({| op := op P; resultSet := None; D := d |}, m1))
    end.
Proof.
  unfold PreparedStatement_executeQuery, bind.
  rewrite _clearResultSet_eq, delegate_eq. simpl.
  destruct (executeQuery (op P) (D P)) as [[[rs|]|e] d]; reflexivity.
Qed.

(** C1.  [PreparedStatement_executeQuery] first discards the result set
    held before and then calls the delegate's [executeQuery].  When the
    delegate returns NULL the call raises an execution error.  When the
    delegate returns a result set, this set is returned and held,
    whatever the number of its rows; a set without rows answers false
    to the first [ResultSet_next]. *)
Theorem executeQuery_result P m :
  let '(built, d) := executeQuery (op P) (D P) in
  let '(res, (P', m')) := PreparedStatement_executeQuery (P, m) in
  trace m' = trace m ++ releases P ++ [Pop_executeQuery] /\
  op P' = op P /\ D P' = d /\
  match built with
  | Ok None =>
      raised ExecutionError res /\ resultSet P' = None
  | Ok (Some rs) =>
      exists R,
        res = Ok R /\ resultSet P' = Some R /\
        results m' !! R = Some rs /\
        (pending rs = [] -> fst (ResultSet_next rs) = Ok false)
  | Throw e =>
      res = Throw e /\ resultSet P' = None
  end.
Proof.
  rewrite PreparedStatement_executeQuery_eq.
  destruct (executeQuery (op P) (D P)) as [[[rs|]|e] d]; simpl;
    rewrite <- app_assoc; repeat split.
  - exists (allocated m). repeat split.
    + apply lookup_insert_eq.
    + intros Hp. unfold ResultSet_next. now rewrite Hp.
  - now eexists.
Qed.

(** C10.  When the statement holds a result set and the delegate returns
    NULL, [PreparedStatement_executeQuery] raises only after that result
    set has been released: the statement is left without a result set,
    and the former one is no longer among the live objects. *)
Theorem executeQuery_error_after_release P m (R : ResultSet_T) :
  resultSet P = Some R ->
  fst (executeQuery (op P) (D P)) = Ok None ->
  let '(res, (P', m')) := PreparedStatement_executeQuery (P, m) in
  raised ExecutionError res /\
  trace m' = trace m ++ [ResultSet_freed R; Pop_executeQuery] /\
  resultSet P' = None /\
  resultSet P' <> resultSet P /\
  results m' = delete R (results m) /\
  results m' !! R = None.
Proof.
  intros HR Hnull. rewrite PreparedStatement_executeQuery_eq.
  destruct (executeQuery (op P) (D P)) as [built d]. simpl in Hnull.
  subst built. unfold released, releases. rewrite HR. simpl.
  rewrite <- app_assoc. simpl.
  repeat split; [now eexists|congruence|apply lookup_delete_eq].
Qed.

(** C8.  [PreparedStatement_free] first releases the result set the
    statement holds, if there is one, and then calls the delegate's
    [free]; the statement is gone when [free] returns. *)
Theorem free_releases_in_order P m :
  let '(r, d) := free (op P) (D P) in
  let '(res, (P', m')) := PreparedStatement_free (P, m) in
  trace m' = trace m ++ releases P ++ [Pop_free] /\
  results m' = results (released P m) /\
  res = r /\
  P' = match r with
       | Ok _ => None
       | Throw _ => Some {| op := op P; resultSet := None; D := d |}
       end.
Proof.
  unfold PreparedStatement_free, bind.
  rewrite _clearResultSet_eq, delegate_eq. simpl.
  destruct (free (op P) (D P)) as [[[]|e] d]; simpl;
    rewrite <- app_assoc; repeat split.
Qed.

(** C9.  Every setter hands its parameter index and its value, as they
    are, to the delegate's operation of the same name and does nothing
    else: the outcome, an error included, is the delegate's; the result
    set held and the live objects are untouched. *)
Theorem setters_forward_verbatim (parameterIndex : Z) :
  (forall x, forwards (PreparedStatement_setString parameterIndex x)
     (Pop_set parameterIndex (VString x))
     (fun o d => @setString DS o d parameterIndex x)) /\
  (forall x, forwards (PreparedStatement_setInt8 parameterIndex x)
     (Pop_set parameterIndex (VInt8 x))
     (fun o d => @setInt8 DS o d parameterIndex x)) /\
  (forall x, forwards (PreparedStatement_setUInt8 parameterIndex x)
     (Pop_set parameterIndex (VUInt8 x))
     (fun o d => @setUInt8 DS o d parameterIndex x)) /\
  (forall x, forwards (PreparedStatement_setInt16 parameterIndex x)
     (Pop_set parameterIndex (VInt16 x))
     (fun o d => @setInt16 DS o d parameterIndex x)) /\
  (forall x, forwards (PreparedStatement_setUInt16 parameterIndex x)
     (Pop_set parameterIndex (VUInt16 x))
     (fun o d => @setUInt16 DS o d parameterIndex x)) /\
  (forall x, forwards (PreparedStatement_setInt32 parameterIndex x)
     (Pop_set parameterIndex (VInt32 x))
     (fun o d => @setInt32 DS o d parameterIndex x)) /\
  (forall x, forwards (PreparedStatement_setUInt32 parameterIndex x)
     (Pop_set parameterIndex (VUInt32 x))
     (fun o d => @setUInt32 DS o d parameterIndex x)) /\
  (forall x, forwards (PreparedStatement_setInt64 parameterIndex x)
     (Pop_set parameterIndex (VInt64 x))
     (fun o d => @setInt64 DS o d parameterIndex x)) /\
  (forall x, forwards (PreparedStatement_setUInt64 parameterIndex x)
     (Pop_set parameterIndex (VUInt64 x))
     (fun o d => @setUInt64 DS o d parameterIndex x)) /\
  (forall x, forwards (PreparedStatement_setDouble parameterIndex x)
     (Pop_set parameterIndex (VDouble x))
     (fun o d => @setDouble DS o d parameterIndex x)) /\
  (forall x size, forwards (PreparedStatement_setBlob parameterIndex x size)
     (Pop_set parameterIndex (VBlob x size))
     (fun o d => @setBlob DS o d parameterIndex x size)) /\
  (forall x, forwards (PreparedStatement_setTimestamp parameterIndex x)
     (Pop_set parameterIndex (VTimestamp x))
     (fun o d => @setTimestamp DS o d parameterIndex x)).
Proof.
  repeat split; intros; intros P m; apply delegate_eq.
Qed.

Lemma new_consistent (d : DS) (o : Pop_T DS) :
  consistent (PreparedStatement_new d o, Mem_empty).
Proof.
  split; simpl.
  - apply dom_empty_L.
  - intros R HR. rewrite dom_empty_L in HR. set_solver.
Qed.

Lemma delegate_consistent {A} e (f : Pop_T DS -> DS -> outcome A * DS) s :
  consistent s -> consistent (after (delegate e f) s).
Proof.
  destruct s as [P m]. unfold after. rewrite delegate_eq. trivial.
Qed.

Lemma released_consistent P m :
  consistent (P, m) -> results (released P m) = ∅.
Proof.
  intros [Hdom _]. simpl in Hdom. apply dom_empty_iff_L.
  unfold released, held in *. simpl.
  destruct (resultSet P) as [R|]; [|assumption].
  rewrite dom_delete_L, Hdom. apply difference_diag_L.
Qed.

Lemma consistent_without (o : Pop_T DS) (d : DS) m :
  results m = ∅ ->
  consistent ({| op := o; resultSet := None; D := d |}, m).
Proof.
  intros Hm. split; simpl; rewrite Hm, dom_empty_L; [reflexivity|].
  intros R HR. now apply not_elem_of_empty in HR.
Qed.

Lemma consistent_with (o : Pop_T DS) (d : DS) m (R : nat) rs :
  results m = ∅ ->
  consistent ({| op := o; resultSet := Some R; D := d |},
              {| results := <[R := rs]> (results m);
                 allocated := S R; trace := trace m |}).
Proof.
  intros Hm. split; simpl; rewrite Hm, dom_insert_L, dom_empty_L,
    union_empty_r_L; [reflexivity|].
  intros R' HR. apply elem_of_singleton in HR as ->. lia.
Qed.

Lemma execute_consistent s :
  consistent s -> consistent (after PreparedStatement_execute s).
Proof.
  destruct s as [P m]. intros Hc. unfold after.
  rewrite PreparedStatement_execute_eq.
  apply consistent_without. exact (released_consistent _ _ Hc).
Qed.

Lemma executeQuery_consistent s :
  consistent s -> consistent (after PreparedStatement_executeQuery s).
Proof.
  destruct s as [P m]. intros Hc. unfold after.
  rewrite PreparedStatement_executeQuery_eq.
  pose proof (released_consistent _ _ Hc) as Hr.
  destruct (executeQuery (op P) (D P)) as [[[rs|]|e] d];
    [|now apply consistent_without..].
  apply (consistent_with (op P) d
           (log Pop_executeQuery (released P m)) (allocated m) rs Hr).
Qed.

Lemma perform_consistent c s : consistent s -> consistent (perform c s).
Proof.
  destruct c as [parameterIndex x| | | |]; cbn [perform].
  - destruct x; apply delegate_consistent.
  - apply execute_consistent.
  - apply executeQuery_consistent.
  - apply delegate_consistent.
  - apply delegate_consistent.
Qed.

Lemma run_consistent (cs : list call) :
  forall s, consistent s -> consistent (run cs s).
Proof.
  induction cs as [|c cs IH]; intros s Hc; simpl; [assumption|].
  apply IH. now apply perform_consistent.
Qed.

Lemma held_at_most_one P : (size (held P) <= 1)%nat.
Proof.
  unfold held. destruct (resultSet P).
  - rewrite size_singleton. lia.
  - rewrite size_empty. lia.
Qed.

(** C2.  After any sequence of calls on a new statement, the live result
    sets are exactly the one the statement holds, if it holds one: there
    is never more than one.  A further [execute] or [executeQuery]
    releases the result set held before it calls the delegate, and that
    result set is not live afterwards. *)
Theorem at_most_one_live_result_set (d : DS) (o : Pop_T DS)
    (cs : list call) :
  let s := run cs (PreparedStatement_new d o, Mem_empty) in
  dom (results (snd s)) = held (fst s) /\
  (size (results (snd s)) <= 1)%nat /\
  (forall R, resultSet (fst s) = Some R ->
     let s1 := after PreparedStatement_execute s in
     let s2 := after PreparedStatement_executeQuery s in
     trace (snd s1) = trace (snd s) ++ [ResultSet_freed R; Pop_execute] /\
     results (snd s1) !! R = None /\
     trace (snd s2)
       = trace (snd s) ++ [ResultSet_freed R; Pop_executeQuery] /\
     results (snd s2) !! R = None).
Proof.
  intros s.
  assert (Hc : consistent s) by apply run_consistent, new_consistent.
  destruct s as [P m]. pose proof Hc as [Hdom Hbelow]. simpl in *.
  split; [assumption|]. split.
  { rewrite <- size_dom, Hdom. apply held_at_most_one. }
  intros R HR.
  pose proof (released_consistent _ _ Hc) as Hr.
  assert (Ht : trace (released P m) = trace m ++ [ResultSet_freed R])
    by (unfold released, releases; now rewrite HR).
  unfold after.
  rewrite PreparedStatement_execute_eq, PreparedStatement_executeQuery_eq.
  split; [|split; [|split]].
  - cbn [snd trace log]. rewrite Ht, <- app_assoc. reflexivity.
  - cbn [snd results log]. rewrite Hr. apply lookup_empty.
  - destruct (executeQuery (op P) (D P)) as [[[rs|]|e] d'];
      cbn [snd trace log]; rewrite Ht, <- app_assoc; reflexivity.
  - assert (HRm : (R < allocated m)%nat).
    { apply Hbelow. rewrite Hdom. unfold held. rewrite HR.
      now apply elem_of_singleton. }
    destruct (executeQuery (op P) (D P)) as [[[rs|]|e] d'];
      cbn [snd results log]; rewrite Hr; [|apply lookup_empty..].
    rewrite lookup_insert_ne by lia. apply lookup_empty.
Qed.
End PreparedStatementFacts.

(** The statement of the example: two parameters are bound, the query
    yields one row, the row is read by name, and a second query, for which
    the backend has no result set, raises. *)
Example statement_scenario :
  let s := run [Set_ 1 (VInt32 7); Set_ 2 (VString (Some "ok"))]
             (Demo.statement, Mem_empty) in
  let '(r, s1) := PreparedStatement_executeQuery s in
  r = Ok 0%nat /\
  match results (snd s1) !! 0%nat with
  | Some R =>
      let '(b1, R1) := ResultSet_next R in
      let '(b2, R2) := ResultSet_next R1 in
      b1 = Ok true /\ b2 = Ok false /\
      @ResultSet_getIntByName Demo.conversions R1 "id" = Ok 7 /\
      ResultSet_getStringByName R1 "label" = Ok (Some "ok") /\
      ResultSet_isnull R1 1 = Ok false
  | None => False
  end /\
  raises (fst (PreparedStatement_executeQuery s1)) = true /\
  results (snd (after PreparedStatement_executeQuery s1)) = ∅.
Proof. vm_compute. repeat split. Qed.

(** A query without rows is not an error. *)
Example query_without_rows :
  let P := PreparedStatement_new
             {| Demo.parameters := 0; Demo.bound := [];
                Demo.replies := [Some Demo.no_rows]; Demo.changed := 0 |}
             Demo.Backend_op in
  let '(r, (P', m')) := PreparedStatement_executeQuery (P, Mem_empty) in
  r = Ok 0%nat /\ resultSet P' = Some 0%nat /\
  (ResultSet_next <$> results m' !! 0%nat)
    = Some (Ok false, Demo.no_rows).
Proof. vm_compute. repeat split. Qed.

(** C10 on the example statement: its first query leaves it with the
    result set 0, its second query gets NULL from the backend. *)
Lemma executeQuery_error_after_release_witness :
  let s := run [ExecuteQuery] (Demo.statement, Mem_empty) in
  resultSet (fst s) = Some 0%nat /\
  fst (executeQuery (op (fst s)) (D (fst s))) = Ok None /\
  let '(res, (P', m')) := PreparedStatement_executeQuery (fst s, snd s) in
  raised ExecutionError res /\
  trace m' = trace (snd s) ++ [ResultSet_freed 0%nat; Pop_executeQuery] /\
  resultSet P' = None /\
  resultSet P' <> resultSet (fst s) /\
  results m' = delete 0%nat (results (snd s)) /\
  results m' !! 0%nat = None.
Proof.
  intros s.
  split; [reflexivity|]. split; [reflexivity|].
  apply (executeQuery_error_after_release (fst s) (snd s) 0%nat);
    reflexivity.
Defined.

(** * Further properties of PreparedStatement.c *)

Import History.

Section StatementHistory.
Context {DS : Type}.
Implicit Types (P : PreparedStatement_S DS) (m : Mem) (s : @state DS).

Lemma run_app (cs1 cs2 : list call) s :
  run (cs1 ++ cs2) s = run cs2 (run cs1 s).
Proof. unfold run. apply foldl_app. Qed.

Lemma PreparedStatement_set_eq parameterIndex x :
  exists f : Pop_T DS -> DS -> outcome unit * DS,
    PreparedStatement_set parameterIndex x
      = delegate (Pop_set parameterIndex x) f.
Proof. destruct x; eexists; reflexivity. Qed.

(** What a call that does not execute the statement is: one call of the
    delegate. *)
Lemma keeps_result_delegate (c : call) :
  keeps_result c = true ->
  exists (A : Type) (f : Pop_T DS -> DS -> outcome A * DS),
    @perform DS c = after (delegate (pop_of c) f).
Proof.
  destruct c as [parameterIndex x| | | |]; simpl; try discriminate;
    intros _.
  - destruct (PreparedStatement_set_eq parameterIndex x) as [f ->].
    now exists unit, f.
  - now exists Z, rowsChanged.
  - now exists Z, parameterCount.
Qed.

(** Binding parameters, reading [rowsChanged] and reading the parameter
    count, in any number and order and whether or not the delegate throws,
    leave the result set the statement holds, and every live result set,
    as they are. *)
Theorem result_set_survives_other_calls (cs : list call) s :
  forallb keeps_result cs = true ->
  resultSet (fst (run cs s)) = resultSet (fst s) /\
  results (snd (run cs s)) = results (snd s) /\
  allocated (snd (run cs s)) = allocated (snd s).
Proof.
  revert s. induction cs as [|c cs IH]; intros s Hk; simpl in *.
  - repeat split.
  - apply andb_true_iff in Hk as [Hc Hcs].
    destruct (IH (perform c s) Hcs) as (-> & -> & ->).
    destruct (keeps_result_delegate c Hc) as (A & f & ->).
    destruct s as [P m]. unfold after. rewrite delegate_eq.
    repeat split.
Qed.

(** [PreparedStatement_execute] releases the result set held and then
    calls the delegate's [execute] once.  Its outcome is the delegate's,
    and whether the delegate returns or throws, the statement holds no
    result set afterwards. *)
Theorem execute_result P m :
  let '(r, d) := execute (op P) (D P) in
  let '(res, (P', m')) := PreparedStatement_execute (P, m) in
  res = r /\ op P' = op P /\ D P' = d /\
  resultSet P' = None /\
  trace m' = trace m ++ releases P ++ [Pop_execute] /\
  results m' = results (released P m) /\
  allocated m' = allocated m.
Proof.
  rewrite PreparedStatement_execute_eq.
  destruct (execute (op P) (D P)) as [r d]. simpl.
  rewrite <- app_assoc. repeat split.
Qed.

Lemma freed_log (t : list event) (e : event) :
  is_pop e = true -> freed (t ++ [e]) = freed t.
Proof.
  intros He. unfold freed. rewrite omap_app. destruct e; try discriminate;
    simpl; apply app_nil_r.
Qed.

Lemma freed_released P m :
  freed (trace (released P m))
    = freed (trace m) ++ match resultSet P with
                         | Some R => [R]
                         | None => []
                         end.
Proof.
  unfold released, releases, freed. cbn [trace]. rewrite omap_app.
  now destruct (resultSet P).
Qed.

Lemma accounted_new (d : DS) (o : Pop_T DS) :
  accounted (PreparedStatement_new d o, Mem_empty).
Proof.
  split; [constructor|]. split; simpl.
  - intros R. split; [lia|]. intros [HR|HR]; [discriminate|].
    now apply elem_of_nil in HR.
  - discriminate.
Qed.

(** A call of the delegate changes nothing in the account. *)
Lemma accounted_delegate P m (e : event) (o : Pop_T DS) (d : DS) :
  is_pop e = true ->
  accounted (P, m) ->
  accounted ({| op := o; resultSet := resultSet P; D := d |}, log e m).
Proof.
  intros He. unfold accounted. cbn [fst snd resultSet log trace allocated].
  now rewrite (freed_log _ _ He).
Qed.

(** Releasing the result set held moves it to the released ones. *)
Lemma accounted_released P m :
  accounted (P, m) -> accounted (cleared P, released P m).
Proof.
  intros (Hnd & Hall & Hheld). unfold accounted. cbn [fst snd] in *.
  rewrite freed_released. unfold cleared, released.
  cbn [resultSet allocated].
  destruct (resultSet P) as [R0|] eqn:HR.
  - split; [|split].
    + apply NoDup_app. split; [assumption|]. split; [|apply NoDup_singleton].
      intros R HRf HR1. apply list_elem_of_singleton in HR1 as ->.
      now apply (Hheld R0).
    + intros R. rewrite Hall, elem_of_app, list_elem_of_singleton.
      split; [intros [[= ->]|HRf]; auto|].
      intros [[=]|[HRf| ->]]; auto.
    + discriminate.
  - rewrite app_nil_r. repeat split; try assumption; apply Hall.
Qed.

(** A result set built by the delegate gets a reference not given out
    before. *)
Lemma accounted_built (o : Pop_T DS) (d : DS) m rs :
  accounted ({| op := o; resultSet := None; D := d |}, m) ->
  accounted ({| op := o; resultSet := Some (allocated m); D := d |},
             {| results := <[allocated m := rs]> (results m);
                allocated := S (allocated m);
                trace := trace m |}).
Proof.
  intros (Hnd & Hall & _). unfold accounted. simpl in *.
  split; [assumption|]. split.
  - intros R. split.
    + intros HR. destruct (decide (R = allocated m)) as [->|Hne]; [now left|].
      right. assert (Hlt : (R < allocated m)%nat) by lia.
      now apply Hall in Hlt as [[=]|Hlt].
    + intros [[= ->]|HR]; [lia|].
      assert (R < allocated m)%nat by (apply Hall; now right). lia.
  - intros R [= <-] HR.
    assert (allocated m < allocated m)%nat by (apply Hall; now right). lia.
Qed.

Lemma accounted_execute s :
  accounted s -> accounted (after PreparedStatement_execute s).
Proof.
  destruct s as [P m]. intros Ha. unfold after.
  rewrite PreparedStatement_execute_eq. cbn [snd].
  apply (accounted_delegate (cleared P) (released P m)); [reflexivity|].
  now apply accounted_released.
Qed.

Lemma accounted_executeQuery s :
  accounted s -> accounted (after PreparedStatement_executeQuery s).
Proof.
  destruct s as [P m]. intros Ha. unfold after.
  rewrite PreparedStatement_executeQuery_eq.
  apply accounted_released in Ha.
  destruct (executeQuery (op P) (D P)) as [[[rs|]|e] d]; cbn [snd].
  - apply (accounted_built (op P) d
             (log Pop_executeQuery (released P m)) rs).
    now apply (accounted_delegate (cleared P) (released P m)).
  - now apply (accounted_delegate (cleared P) (released P m)).
  - now apply (accounted_delegate (cleared P) (released P m)).
Qed.

Lemma accounted_perform (c : call) s : accounted s -> accounted (perform c s).
Proof.
  destruct (keeps_result c) eqn:Hk.
  - destruct (keeps_result_delegate c Hk) as (A & f & ->).
    destruct s as [P m]. unfold after. rewrite delegate_eq.
    apply accounted_delegate. now destruct c as [? []| | | |].
  - destruct c; try discriminate; cbn [perform].
    + apply accounted_execute.
    + apply accounted_executeQuery.
Qed.

Lemma accounted_run (cs : list call) :
  forall s, accounted s -> accounted (run cs s).
Proof.
  induction cs as [|c cs IH]; intros s Ha; simpl; [assumption|].
  apply IH. now apply accounted_perform.
Qed.

(** Whatever is done with a new statement, no result set is released
    twice and none is lost: a reference has been given out exactly when it
    is the one the statement holds or occurs among the released ones, the
    released ones are all different, and the one held is not among
    them. *)
Theorem result_sets_released_once (d : DS) (o : Pop_T DS) (cs : list call) :
  let s := run cs (PreparedStatement_new d o, Mem_empty) in
  NoDup (freed (trace (snd s))) /\
  (forall R : nat, (R < allocated (snd s))%nat <->
     resultSet (fst s) = Some R \/ R ∈ freed (trace (snd s))) /\
  (forall R : nat, resultSet (fst s) = Some R ->
     (R ∉ freed (trace (snd s))) /\ is_Some (results (snd s) !! R)).
Proof.
  intros s.
  assert (Ha : accounted s) by apply accounted_run, accounted_new.
  assert (Hc : consistent s) by apply run_consistent, new_consistent.
  destruct Ha as (Hnd & Hall & Hheld).
  split; [assumption|]. split; [assumption|].
  intros R HR. split; [now apply Hheld|].
  apply elem_of_dom. destruct Hc as [-> _]. unfold held.
  rewrite HR. now apply elem_of_singleton.
Qed.

(** Destroying a statement, whatever was done with it before, leaves no
    result set alive: every result set it ever produced has been released,
    each one once.  This holds whether the delegate's [free] returns or
    throws; the statement itself is gone exactly when [free] returns. *)
Theorem free_leaves_no_result_set (d : DS) (o : Pop_T DS) (cs : list call) :
  let s := run cs (PreparedStatement_new d o, Mem_empty) in
  let '(res, (P', m')) := PreparedStatement_free s in
  results m' = ∅ /\
  NoDup (freed (trace m')) /\
  (forall R : nat, (R < allocated m')%nat <-> R ∈ freed (trace m')) /\
  (P' = None <-> res = Ok tt).
Proof.
  intros s.
  assert (Ha : accounted s) by apply accounted_run, accounted_new.
  assert (Hc : consistent s) by apply run_consistent, new_consistent.
  destruct s as [P m]. apply accounted_released in Ha.
  apply (accounted_delegate _ _ Pop_free (op P) (snd (free (op P) (D P)))
           eq_refl) in Ha.
  destruct Ha as (Hnd & Hall & _). cbn [fst snd resultSet cleared] in *.
  pose proof (released_consistent _ _ Hc) as Hr.
  unfold PreparedStatement_free, bind.
  rewrite _clearResultSet_eq, delegate_eq.
  unfold cleared. cbn [op D resultSet].
  destruct (free (op P) (D P)) as [[[]|e] d']; cbn [fst snd] in *;
    (split; [exact Hr|]); (split; [exact Hnd|]); split;
    try (intros R; rewrite Hall; split; [intros [[=]|?]; assumption|auto]);
    split; congruence.
Qed.

Lemma pops_log (t : list event) (e : event) :
  is_pop e = true -> pops (t ++ [e]) = pops t ++ [e].
Proof. intros He. unfold pops. rewrite List.filter_app. simpl. now rewrite He. Qed.

Lemma pops_released P m : pops (trace (released P m)) = pops (trace m).
Proof.
  unfold released, releases, pops. cbn [trace]. rewrite List.filter_app.
  destruct (resultSet P); simpl; apply app_nil_r.
Qed.

Lemma pops_perform (c : call) s :
  pops (trace (snd (perform c s))) = pops (trace (snd s)) ++ [pop_of c] /\
  op (fst (perform c s)) = op (fst s).
Proof.
  destruct s as [P m].
  destruct (keeps_result c) eqn:Hk.
  - destruct (keeps_result_delegate c Hk) as (A & f & ->).
    unfold after. rewrite delegate_eq. cbn [fst snd op log trace].
    split; [|reflexivity]. apply pops_log. now destruct c as [? []| | | |].
  - destruct c; try discriminate; cbn [perform]; unfold after.
    + rewrite PreparedStatement_execute_eq. cbn [fst snd op log trace].
      split; [|reflexivity]. rewrite pops_log by reflexivity.
      now rewrite pops_released.
    + rewrite PreparedStatement_executeQuery_eq.
      destruct (executeQuery (op P) (D P)) as [[[rs|]|e] d];
        cbn [fst snd op log trace]; (split; [|reflexivity]);
        rewrite pops_log by reflexivity; now rewrite pops_released.
Qed.

Lemma Pop_step_perform (c : call) s :
  D (fst (perform c s)) = Pop_step (op (fst s)) (D (fst s)) c.
Proof.
  destruct s as [P m].
  destruct c as [parameterIndex x| | | |]; cbn [perform]; unfold after.
  - destruct x; cbn [PreparedStatement_set];
      unfold PreparedStatement_setString, PreparedStatement_setInt8,
        PreparedStatement_setUInt8, PreparedStatement_setInt16,
        PreparedStatement_setUInt16, PreparedStatement_setInt32,
        PreparedStatement_setUInt32, PreparedStatement_setInt64,
        PreparedStatement_setUInt64, PreparedStatement_setDouble,
        PreparedStatement_setBlob, PreparedStatement_setTimestamp;
      now rewrite delegate_eq.
  - now rewrite PreparedStatement_execute_eq.
  - rewrite PreparedStatement_executeQuery_eq. cbn [fst Pop_step].
    now destruct (executeQuery (op P) (D P)) as [[[rs|]|e] d].
  - unfold PreparedStatement_rowsChanged. now rewrite delegate_eq.
  - unfold PreparedStatement_getParameterCount. now rewrite delegate_eq.
Qed.

(** Every call of a client reaches the delegate exactly once, with its
    own arguments and in the order of the calls, whatever earlier calls
    returned or threw: after any sequence of calls the delegate is what
    the operations of the same names, applied one after the other to the
    index and value of each call, make of it.  Nothing is retried, skipped
    or reordered, the history lists these calls and no others, and the
    table of operations the statement was created with is never
    replaced. *)
Theorem one_delegate_call_per_call (cs : list call) s :
  D (fst (run cs s)) = foldl (Pop_step (op (fst s))) (D (fst s)) cs /\
  pops (trace (snd (run cs s))) = pops (trace (snd s)) ++ map pop_of cs /\
  op (fst (run cs s)) = op (fst s).
Proof.
  revert s. induction cs as [|c cs IH]; intros s; simpl.
  - now rewrite app_nil_r.
  - destruct (IH (perform c s)) as (-> & -> & ->).
    destruct (pops_perform c s) as [-> ->].
    rewrite (Pop_step_perform c s). now rewrite <- app_assoc.
Qed.
End StatementHistory.

(** * Properties of filterh.l *)

Import Filterh.

Section Scanner.
#[local] Arguments Ascii.eqb : simpl never.

Lemma choose_In (rs : list (option nat * action)) n a :
  choose rs = Some (n, a) -> In (Some n, a) rs.
Proof.
  induction rs as [|[[k|] b] rs IH]; simpl; [discriminate| |].
  - destruct (choose rs) as [[n' a']|].
    + destruct (k <? n')%nat; intros [= <- <-]; auto.
    + intros [= <- <-]. auto.
  - auto.
Qed.

(** Every match has at least one character. *)
Lemma match_positive st bol s n a :
  choose (rules st bol s) = Some (n, a) -> (1 <= n)%nat.
Proof.
  intros Hc. apply choose_In in Hc.
  assert (Hline : forall w b, line_with w b s = Some n -> (1 <= n)%nat).
  { intros w b. unfold line_with. destruct b; [|discriminate].
    destruct (upto_newline s) as [l|]; [|discriminate].
    destruct (occurs w l); [|discriminate]. intros [= <-]. lia. }
  assert (Hlit : forall p, literal_line p s = Some n -> (1 <= n)%nat).
  { intros p. unfold literal_line. destruct (starts p s); [|discriminate].
    destruct (upto_newline s); [|discriminate]. intros [= <-]. lia. }
  assert (Hany : any s = Some n -> (1 <= n)%nat).
  { destruct s; simpl; [discriminate|]. intros [= <-]. lia. }
  destruct st; simpl in Hc;
    repeat (destruct Hc as [Hc|Hc]; [injection Hc as Hm _|]);
    try contradiction; eauto.
  - unfold literal in Hm. destruct (starts _ s); [|discriminate].
    injection Hm as <-. simpl. lia.
  - unfold literal in Hm. destruct (starts _ s); [|discriminate].
    injection Hm as <-. simpl. lia.
  - unfold dot in Hm. destruct s; [discriminate|].
    destruct (Ascii.eqb a0 NL); [discriminate|]. injection Hm as <-. lia.
Qed.

(** Enough fuel is as good as more. *)
Lemma yylex_fuel : forall f1 f2 st bol s,
  (length s <= f1)%nat -> (length s <= f2)%nat ->
  yylex f1 st bol s = yylex f2 st bol s.
Proof.
  induction f1 as [|f1 IH]; intros f2 st bol [|c s'] H1 H2.
  - now destruct f2.
  - simpl in H1. lia.
  - now destruct f2.
  - simpl in H1. destruct f2 as [|f2]; simpl in H2; [lia|]. cbn [yylex].
    assert (Hd : forall k, (length (drop k s') <= f1)%nat
                           /\ (length (drop k s') <= f2)%nat)
      by (intros k; rewrite length_drop; lia).
    destruct (choose (rules st bol (c :: s'))) as [[n [|st'|]]|];
      try (f_equal; apply IH; first [apply Hd | lia]);
      apply IH; first [apply Hd | lia].
Qed.

Lemma yylex_scan f st bol s :
  (length s <= f)%nat -> yylex f st bol s = scan st bol s.
Proof. intros Hf. unfold scan. now apply yylex_fuel. Qed.

Lemma drop_pred {A} n (c : A) s' :
  (1 <= n)%nat -> drop (n - 1) s' = drop n (c :: s').
Proof. destruct n; [lia|]. intros _. simpl. now rewrite Nat.sub_0_r. Qed.

(** One match of the scanner. *)
Lemma scan_step st bol s :
  s <> [] ->
  scan st bol s =
    match choose (rules st bol s) with
    | Some (n, Skip) => scan st (ends_line (take n s)) (drop n s)
    | Some (n, BEGIN st') => scan st' (ends_line (take n s)) (drop n s)
    | Some (n, Print) =>
        c_str (take n s) ++ scan st (ends_line (take n s)) (drop n s)
    | None => take 1 s ++ scan st (ends_line (take 1 s)) (drop 1 s)
    end.
Proof.
  destruct s as [|c s']; [congruence|]. intros _.
  unfold scan at 1. cbn [length yylex].
  assert (Hd : forall k, (length (drop k s') <= length s')%nat)
    by (intros k; rewrite length_drop; lia).
  destruct (choose (rules st bol (c :: s'))) as [[n [|st'|]]|] eqn:Hc.
  - rewrite yylex_scan by apply Hd.
    now rewrite (drop_pred n c) by (eapply match_positive; eassumption).
  - rewrite yylex_scan by apply Hd.
    now rewrite (drop_pred n c) by (eapply match_positive; eassumption).
  - rewrite yylex_scan by apply Hd.
    now rewrite (drop_pred n c) by (eapply match_positive; eassumption).
  - rewrite yylex_scan by lia. reflexivity.
Qed.

(** *** Facts about the patterns *)

Lemma starts_app (p r : text) : starts p (p ++ r) = true.
Proof.
  induction p as [|a p IH]; simpl; [reflexivity|].
  now rewrite Ascii.eqb_refl.
Qed.

Lemma starts_extend (p s r : text) :
  starts p s = true -> starts p (s ++ r) = true.
Proof.
  revert s. induction p as [|a p IH]; intros [|b s]; simpl;
    try reflexivity; try discriminate.
  intros [-> Hs]%andb_true_iff. now rewrite IH.
Qed.

Lemma starts_length (p s : text) :
  starts p s = true -> (length p <= length s)%nat.
Proof.
  revert s. induction p as [|a p IH]; intros [|b s]; simpl;
    try discriminate; try lia.
  intros [_ Hs]%andb_true_iff. apply IH in Hs. lia.
Qed.

(** A match that reaches beyond [b] ends in the text behind [b]. *)
Lemma starts_app_inv (p b r : text) :
  starts p (b ++ r) = true ->
  starts p b = true \/
  ((length b < length p)%nat /\ starts (drop (length b) p) r = true).
Proof.
  revert b. induction p as [|a p IH]; intros b; [now left|].
  destruct b as [|x b]; [intros Hs; right; split; [simpl; lia|exact Hs]|].
  simpl. intros [Hx Hs]%andb_true_iff. rewrite Hx.
  destruct (IH b Hs) as [Hb|[Hlen Hr]]; [now left|].
  right. split; [lia|assumption].
Qed.

(** No pattern holding no newline matches across a newline. *)
Lemma starts_before_newline (p b r : text) :
  NL ∉ p -> starts p (b ++ NL :: r) = true -> starts p b = true.
Proof.
  revert b. induction p as [|a p IH]; intros b Hp; [reflexivity|].
  destruct b as [|x b]; simpl.
  - intros [Ha _]%andb_true_iff. apply Ascii.eqb_eq in Ha. subst a.
    exfalso. apply Hp. now left.
  - intros [-> Hs]%andb_true_iff. apply IH; [|assumption].
    intros Hin. apply Hp. now right.
Qed.

Lemma occurs_cons (p : text) c t :
  occurs p (c :: t) = false ->
  starts p (c :: t) = false /\ occurs p t = false.
Proof. cbn [occurs]. now intros [? ?]%orb_false_iff. Qed.

Lemma starts_occurs (p s : text) : starts p s = true -> occurs p s = true.
Proof. destruct s; cbn [occurs]; [trivial|]. now intros ->. Qed.

Lemma occurs_extend (p l r : text) :
  occurs p l = true -> occurs p (l ++ r) = true.
Proof.
  induction l as [|c l IH].
  - cbn [occurs]. intros Hp. apply starts_occurs.
    now apply (starts_extend p [] r).
  - cbn [occurs app]. intros [Hs|Ho]%orb_true_iff; apply orb_true_iff.
    + left. now apply (starts_extend p (c :: l) r).
    + right. now apply IH.
Qed.

Lemma occurs_behind (p l r : text) :
  occurs p r = true -> occurs p (l ++ r) = true.
Proof.
  intros Hr. induction l as [|c l IH]; [assumption|].
  cbn [occurs app]. rewrite IH. apply orb_true_r.
Qed.

Lemma occurs_length (p l : text) :
  occurs p l = true -> (length p <= length l)%nat.
Proof.
  induction l as [|c l IH]; cbn [occurs].
  - apply starts_length.
  - intros [Hs|Ho]%orb_true_iff.
    + now apply starts_length in Hs.
    + apply IH in Ho. simpl. lia.
Qed.

Lemma upto_newline_split (s l : text) :
  upto_newline s = Some l -> exists r, s = l ++ NL :: r.
Proof.
  revert l. induction s as [|c s IH]; intros l; simpl; [discriminate|].
  destruct (Ascii.eqb_spec c NL) as [->|Hc].
  - intros [= <-]. now exists s.
  - destruct (upto_newline s) as [l'|]; [|discriminate].
    intros [= <-]. destruct (IH l' eq_refl) as [r ->]. now exists r.
Qed.

Lemma upto_newline_app (l r : text) :
  NL ∉ l -> upto_newline (l ++ NL :: r) = Some l.
Proof.
  induction l as [|c l IH]; intros Hl; simpl.
  - now rewrite ?Ascii.eqb_refl.
  - destruct (Ascii.eqb_spec c NL) as [->|Hc];
      [exfalso; apply Hl; now left|].
    rewrite IH; [reflexivity|]. intros Hin. apply Hl. now right.
Qed.

(** The line seen in front of a newline lies in front of it. *)
Lemma upto_newline_within (Y post l : text) :
  upto_newline (Y ++ NL :: post) = Some l -> exists r, Y = l ++ r.
Proof.
  revert l. induction Y as [|c Y IH]; intros l; simpl.
  - rewrite ?Ascii.eqb_refl. intros [= <-]. now exists [].
  - destruct (Ascii.eqb c NL).
    + intros [= <-]. now exists (c :: Y).
    + destruct (upto_newline (Y ++ NL :: post)) as [l'|]; [|discriminate].
      intros [= <-]. destruct (IH l' eq_refl) as [r ->]. now exists r.
Qed.

Lemma line_free (w : text) bol (s : text) :
  occurs w s = false -> line_with w bol s = None.
Proof.
  intros Hw. unfold line_with. destruct bol; [|reflexivity].
  destruct (upto_newline s) as [l|] eqn:Hl; [|reflexivity].
  destruct (occurs w l) eqn:Ho; [|reflexivity].
  apply upto_newline_split in Hl as [r ->].
  now rewrite (occurs_extend w l (NL :: r) Ho) in Hw.
Qed.

Lemma line_free_newline (w : text) bol (Y post : text) :
  occurs w Y = false -> line_with w bol (Y ++ NL :: post) = None.
Proof.
  intros Hw. unfold line_with. destruct bol; [|reflexivity].
  destruct (upto_newline (Y ++ NL :: post)) as [l|] eqn:Hl; [|reflexivity].
  destruct (occurs w l) eqn:Ho; [|reflexivity].
  apply upto_newline_within in Hl as [r ->].
  now rewrite (occurs_extend w l r Ho) in Hw.
Qed.

Lemma unmarked_tail c (t : text) : unmarked (c :: t) -> c <> NUL /\ unmarked t.
Proof.
  intros (H1 & H2 & H3). apply occurs_cons in H1 as [_ H1].
  apply occurs_cons in H2 as [_ H2]. split.
  - intros ->. apply H3. now left.
  - repeat split; try assumption. intros Hin. apply H3. now right.
Qed.

Lemma untagged_tail c (t : text) : untagged (c :: t) -> untagged t.
Proof.
  intros (H1 & H2). apply occurs_cons in H1 as [_ H1].
  apply occurs_cons in H2 as [_ H2]. now split.
Qed.

Lemma untagged_behind (l r : text) : untagged (l ++ r) -> untagged r.
Proof.
  induction l as [|c l IH]; [trivial|]. intros Hu. apply IH.
  now apply (untagged_tail c).
Qed.

(** *** Single matches *)

Lemma c_str_one c : c <> NUL -> c_str [c] = [c].
Proof. intros Hc. simpl. now apply Ascii.eqb_neq in Hc as ->. Qed.

(** Where only the last rule of [INITIAL] can match, one character is
    copied. *)
Lemma quiet_step bol c (s' : text) :
  c <> NUL -> quiet (c :: s') ->
  scan INITIAL bol (c :: s') = c :: scan INITIAL (Ascii.eqb c NL) s'.
Proof.
  intros Hc (H1 & H2 & H3 & H4).
  rewrite scan_step by discriminate.
  assert (L1 : line_with (chars "@author") bol (c :: s') = None)
    by (destruct bol; [assumption|reflexivity]).
  assert (L2 : line_with (chars "@version") bol (c :: s') = None)
    by (destruct bol; [assumption|reflexivity]).
  unfold rules, literal, dot. rewrite L1, L2, H3, H4.
  destruct (Ascii.eqb c NL) eqn:Hnl; cbn [choose take drop app];
    rewrite take_0, drop_0.
  - unfold ends_line. cbn [last app]. now rewrite Hnl.
  - rewrite (c_str_one c Hc). unfold ends_line. cbn [last app].
    now rewrite Hnl.
Qed.

(** Inside a block a character that does not begin the closing line is
    dropped. *)
Lemma inside_step k bol c (s' : text) :
  starts (closer k) (c :: s') = false ->
  scan (inside k) bol (c :: s') = scan (inside k) (Ascii.eqb c NL) s'.
Proof.
  intros Hs. rewrite scan_step by discriminate.
  destruct k; unfold rules, inside, literal_line, any;
    cbn [closer] in Hs; rewrite Hs; cbn [choose take drop];
    rewrite take_0, drop_0; unfold ends_line; now cbn [last].
Qed.

(** The closing line, up to its newline, ends the block. *)
Lemma closing_step k bol (rest post : text) :
  NL ∉ rest ->
  scan (inside k) bol (closer k ++ rest ++ NL :: post)
    = scan INITIAL true post.
Proof.
  intros Hr.
  assert (Hline : upto_newline (closer k ++ rest ++ NL :: post)
                  = Some (closer k ++ rest)).
  { rewrite app_assoc. apply upto_newline_app.
    intros [Hin|Hin]%elem_of_app; [|now apply Hr].
    destruct k; vm_compute in Hin;
      repeat (apply elem_of_cons in Hin as [Hin|Hin]; [discriminate|]);
      now apply elem_of_nil in Hin. }
  assert (Hcut : closer k ++ rest ++ NL :: post
                 = (closer k ++ rest ++ [NL]) ++ post)
    by now rewrite <- !app_assoc.
  assert (Hn : length (closer k ++ rest ++ [NL])
               = S (length (closer k ++ rest)))
    by (rewrite app_assoc, length_app; simpl; lia).
  assert (Hne : closer k ++ rest ++ NL :: post <> []) by now destruct k.
  rewrite scan_step by exact Hne.
  assert (Hc : choose (rules (inside k) bol (closer k ++ rest ++ NL :: post))
               = Some (S (length (closer k ++ rest)), BEGIN INITIAL)).
  { destruct k; unfold rules, inside, literal_line;
      cbn [closer] in *; rewrite Hline;
      rewrite (starts_app _ (rest ++ NL :: post)); reflexivity. }
  rewrite Hc, Hcut, <- Hn, take_app_length, drop_app_length.
  unfold ends_line. rewrite app_assoc, last_snoc.
  now rewrite Ascii.eqb_refl.
Qed.

(** An opening marker, where no line is deleted, begins a block. *)
Lemma opening_step k bol (r : text) :
  line_with (chars "@author") bol (opener k ++ r) = None ->
  line_with (chars "@version") bol (opener k ++ r) = None ->
  scan INITIAL bol (opener k ++ r) = scan (inside k) false r.
Proof.
  intros L1 L2. rewrite scan_step by now destruct k.
  assert (Hc : choose (rules INITIAL bol (opener k ++ r))
               = Some (length (opener k), BEGIN (inside k))).
  { unfold rules. rewrite L1, L2. now destruct k. }
  rewrite Hc, take_app_length, drop_app_length. now destruct k.
Qed.

(** At the beginning of a line, a line holding one of the two words is
    deleted, newline included, whatever else it holds. *)
Lemma tag_step (l post : text) :
  NL ∉ l ->
  occurs (chars "@author") l = true \/ occurs (chars "@version") l = true ->
  scan INITIAL true (l ++ NL :: post) = scan INITIAL true post.
Proof.
  intros Hl Hw.
  assert (Hlen : (7 <= length l)%nat).
  { destruct Hw as [Hw|Hw]; apply occurs_length in Hw;
      change (length (chars "@author")) with 7%nat in *;
      change (length (chars "@version")) with 8%nat in *; lia. }
  assert (Hne : l ++ NL :: post <> []) by now destruct l.
  rewrite scan_step by exact Hne.
  assert (Hc : choose (rules INITIAL true (l ++ NL :: post))
               = Some (S (length l), Skip)).
  { unfold rules, line_with, literal. rewrite (upto_newline_app l post Hl).
    change (length (chars "//<<")) with 4%nat.
    change (length (chars "#<<")) with 3%nat.
    assert (Hdot : dot (l ++ NL :: post) = Some 1%nat \/
                   dot (l ++ NL :: post) = None).
    { unfold dot. destruct (l ++ NL :: post) as [|c ?]; [now right|].
      destruct (Ascii.eqb c NL); auto. }
    destruct Hdot as [-> | ->];
      destruct (starts (chars "//<<") (l ++ NL :: post)),
               (starts (chars "#<<") (l ++ NL :: post));
      destruct Hw as [-> | ->];
      destruct (occurs _ l); cbn [choose];
      repeat match goal with
             | |- context [(?a <? ?b)%nat] =>
                 destruct (Nat.ltb_spec a b); try lia
             end;
      reflexivity. }
  assert (Hcut : l ++ NL :: post = (l ++ [NL]) ++ post)
    by now rewrite <- app_assoc.
  assert (Hn : length (l ++ [NL]) = S (length l))
    by (rewrite length_app; simpl; lia).
  rewrite Hc, Hcut, <- Hn, take_app_length, drop_app_length.
  unfold ends_line. rewrite last_snoc. now rewrite Ascii.eqb_refl.
Qed.

(** *** Runs of matches *)

(** A run of characters at each of which the scanner is quiet is
    copied. *)
Lemma pass_through (I : text -> Prop) (rest : text) :
  (forall c t, I (c :: t) -> c <> NUL /\ quiet (c :: t ++ rest) /\ I t) ->
  forall pre bol, I pre ->
  scan INITIAL bol (pre ++ rest)
    = pre ++ scan INITIAL (match last pre with
                           | Some c => Ascii.eqb c NL
                           | None => bol
                           end) rest.
Proof.
  intros Hstep. induction pre as [|c pre IH]; intros bol HI; [reflexivity|].
  destruct (Hstep _ _ HI) as (Hc & Hq & HI').
  cbn [app]. rewrite quiet_step by assumption. rewrite IH by assumption.
  rewrite last_cons. now destruct (last pre).
Qed.

(** Inside a block, a run of characters none of which begins the closing
    line is dropped. *)
Lemma skip_through k (I : text -> Prop) (rest : text) :
  (forall c t, I (c :: t) ->
     starts (closer k) (c :: t ++ rest) = false /\ I t) ->
  forall mid bol, I mid ->
  exists bol', scan (inside k) bol (mid ++ rest) = scan (inside k) bol' rest.
Proof.
  intros Hstep. induction mid as [|c mid IH]; intros bol HI; [now exists bol|].
  destruct (Hstep _ _ HI) as (Hs & HI').
  cbn [app]. rewrite inside_step by assumption. now apply IH.
Qed.

(** A marker cannot begin in a text that holds none and end in a marker
    that follows it. *)
Lemma no_opener_across k j (n : nat) (r : text) :
  (1 <= n < length (opener j))%nat ->
  starts (drop n (opener j)) (opener k ++ r) = false.
Proof.
  destruct j, k; destruct n as [|[|[|[|n]]]]; simpl; intros Hn;
    try lia; reflexivity.
Qed.

Lemma no_closer_across k (n : nat) (r : text) :
  (1 <= n < length (closer k))%nat ->
  starts (drop n (closer k)) (closer k ++ r) = false.
Proof.
  destruct k; destruct n as [|[|[|[|n]]]]; simpl; intros Hn;
    try lia; reflexivity.
Qed.

Lemma starts_not_across (p : text) c (t r : text) :
  occurs p (c :: t) = false ->
  (forall n, (1 <= n < length p)%nat -> starts (drop n p) r = false) ->
  starts p (c :: t ++ r) = false.
Proof.
  intros [Hs _]%occurs_cons Hr.
  destruct (starts p (c :: t ++ r)) eqn:Hp; [|reflexivity].
  apply (starts_app_inv p (c :: t) r) in Hp as [Hp|[Hlen Hp]];
    [congruence|].
  rewrite Hr in Hp; [discriminate|]. simpl in *. lia.
Qed.

Lemma quiet_before_opener k c (t Z : text) :
  unmarked (c :: t) ->
  line_with (chars "@author") true (c :: t ++ opener k ++ Z) = None ->
  line_with (chars "@version") true (c :: t ++ opener k ++ Z) = None ->
  quiet (c :: t ++ opener k ++ Z).
Proof.
  intros (H1 & H2 & _) L1 L2. repeat split; try assumption.
  - apply starts_not_across; [assumption|].
    intros n Hn. apply (no_opener_across k Slashes n Z Hn).
  - apply starts_not_across; [assumption|].
    intros n Hn. apply (no_opener_across k Hash n Z Hn).
Qed.

(** *** What the filter does *)

Lemma c_str_sublist (t : text) : c_str t `sublist_of` t.
Proof.
  induction t as [|c t IH]; simpl; [constructor|].
  destruct (Ascii.eqb c NUL); [apply sublist_nil_l|now apply sublist_skip].
Qed.

Lemma yylex_sublist f : forall st bol s, yylex f st bol s `sublist_of` s.
Proof.
  induction f as [|f IH]; intros st bol [|c s']; cbn [yylex];
    try apply sublist_nil_l.
  destruct (choose (rules st bol (c :: s'))) as [[n [|st'|]]|] eqn:Hc.
  - apply sublist_cons. etransitivity; [apply IH|apply sublist_drop].
  - apply sublist_cons. etransitivity; [apply IH|apply sublist_drop].
  - apply match_positive in Hc. destruct n as [|n]; [lia|].
    cbn [take]. rewrite Nat.sub_succ, Nat.sub_0_r.
    pose proof (sublist_app _ _ _ _ (c_str_sublist (c :: take n s'))
                  (IH st (ends_line (c :: take n s')) (drop n s'))) as Hs.
    cbn [app] in Hs. now rewrite take_drop in Hs.
  - apply sublist_skip. apply IH.
Qed.

(** The filter only takes text away: what it writes is the input with
    some characters left out, in the order of the input, and never
    longer than the input. *)
Theorem filterh_only_removes (input : text) :
  filterh input `sublist_of` input /\
  (length (filterh input) <= length input)%nat.
Proof.
  assert (Hs : filterh input `sublist_of` input) by apply yylex_sublist.
  split; [assumption|]. now apply sublist_length.
Qed.

(** A text that holds no opening marker, none of the words "@author" and
    "@version", and no NUL is written as it is. *)
Theorem filterh_plain_text (t : text) :
  unmarked t -> untagged t -> filterh t = t.
Proof.
  intros Hm Ht.
  pose proof (pass_through (fun t => unmarked t /\ untagged t) []) as Hp.
  change (filterh t) with (scan INITIAL true t).
  rewrite <- (app_nil_r t) at 1. rewrite Hp; [apply app_nil_r| |now split].
  clear. intros c t [Hm Ht].
  destruct (unmarked_tail c t Hm) as [Hc Hm'].
  split; [assumption|]. split; [|split; [assumption|]].
  - rewrite app_nil_r. destruct Hm as (H1 & H2 & _), Ht as (T1 & T2).
    repeat split; try (now apply line_free); now apply occurs_cons.
  - now apply (untagged_tail c).
Qed.

(** A filtered block: when the text in front holds no marker, no line up
    to the end of the closing line holds "@author" or "@version", and the
    block holds no closing marker of its own, then everything from the
    opening marker to the end of the line of the closing marker is left
    out, and the filter goes on behind it as at the beginning of a file.
    This holds for both comment styles. *)
Theorem filterh_block (k : style) (pre mid rest post : text) :
  unmarked pre ->
  untagged (pre ++ opener k ++ mid ++ closer k ++ rest) ->
  occurs (closer k) mid = false ->
  NL ∉ rest ->
  filterh (pre ++ opener k ++ mid ++ closer k ++ rest ++ NL :: post)
    = pre ++ filterh post.
Proof.
  intros Hm Ht Hmid Hrest.
  change (filterh (pre ++ opener k ++ mid ++ closer k ++ rest ++ NL :: post))
    with (scan INITIAL true
            (pre ++ opener k ++ mid ++ closer k ++ rest ++ NL :: post)).
  set (Z := mid ++ closer k ++ rest) in *.
  assert (HZ : forall x : text,
             x ++ opener k ++ mid ++ closer k ++ rest ++ NL :: post
             = (x ++ opener k ++ Z) ++ NL :: post)
    by (intros x; unfold Z; now rewrite <- !app_assoc).
  pose proof (HZ []) as HZ0. cbn [app] in HZ0.
  rewrite (pass_through
             (fun t => unmarked t /\ untagged (t ++ opener k ++ Z))
             (opener k ++ mid ++ closer k ++ rest ++ NL :: post));
    [| |now split].
  - f_equal.
    rewrite opening_step.
    + destruct (skip_through k (fun t => occurs (closer k) t = false)
                  (closer k ++ rest ++ NL :: post)) with (mid := mid)
        (bol := false) as [bol' ->]; [|assumption|now apply closing_step].
      intros c t Hc. split; [|now apply occurs_cons in Hc].
      apply starts_not_across; [assumption|].
      intros n Hn. now apply no_closer_across.
    + rewrite HZ0. apply line_free_newline.
      apply untagged_behind in Ht. apply Ht.
    + rewrite HZ0. apply line_free_newline.
      apply untagged_behind in Ht. apply Ht.
  - intros c t [Hm' Ht'].
    destruct (unmarked_tail c t Hm') as [Hc Hm''].
    split; [assumption|]. split; [|split; [assumption|]].
    + replace (mid ++ closer k ++ rest ++ NL :: post)
        with (Z ++ NL :: post) by (unfold Z; now rewrite <- !app_assoc).
      apply quiet_before_opener; [assumption| |].
      * replace (c :: t ++ opener k ++ Z ++ NL :: post)
          with (((c :: t) ++ opener k ++ Z) ++ NL :: post)
          by now rewrite <- !app_assoc.
        apply line_free_newline, Ht'.
      * replace (c :: t ++ opener k ++ Z ++ NL :: post)
          with (((c :: t) ++ opener k ++ Z) ++ NL :: post)
          by now rewrite <- !app_assoc.
        apply line_free_newline, Ht'.
    + now apply (untagged_tail c).
Qed.

(** A block that is never closed: when the text in front holds no
    marker, no line holds "@author" or "@version", and no closing marker
    follows, everything from the opening marker to the end of the file is
    left out. *)
Theorem filterh_open_block (k : style) (pre rest : text) :
  unmarked pre ->
  untagged (pre ++ opener k ++ rest) ->
  occurs (closer k) rest = false ->
  filterh (pre ++ opener k ++ rest) = pre.
Proof.
  intros Hm Ht Hrest.
  change (filterh (pre ++ opener k ++ rest))
    with (scan INITIAL true (pre ++ opener k ++ rest)).
  rewrite (pass_through
             (fun t => unmarked t /\ untagged (t ++ opener k ++ rest))
             (opener k ++ rest)); [| |now split].
  - assert (Hnone : forall b, scan INITIAL b (opener k ++ rest) = []).
    { intros b. rewrite opening_step.
      + destruct (skip_through k (fun t => occurs (closer k) t = false) [])
          with (mid := rest) (bol := false) as [bol' Hs];
          [|assumption|].
        * intros c t Hc. split; [|now apply occurs_cons in Hc].
          rewrite app_nil_r. now apply occurs_cons in Hc.
        * rewrite app_nil_r in Hs. rewrite Hs. reflexivity.
      + apply line_free. apply untagged_behind in Ht. apply Ht.
      + apply line_free. apply untagged_behind in Ht. apply Ht. }
    rewrite Hnone. apply app_nil_r.
  - intros c t [Hm' Ht'].
    destruct (unmarked_tail c t Hm') as [Hc Hm''].
    split; [assumption|]. split; [|split; [assumption|]].
    + apply quiet_before_opener; [assumption| |];
        apply line_free, Ht'.
    + now apply (untagged_tail c).
Qed.

Lemma whole_lines_tail c (t : text) :
  whole_lines (c :: t) -> whole_lines t /\ exists Y, c :: t = Y ++ [NL].
Proof.
  intros [[=]|Hl]. split.
  - destruct t as [|c' t]; [now left|]. right.
    rewrite last_cons in Hl. rewrite (last_cons c' t) in *.
    now destruct (last t).
  - now apply last_Some in Hl.
Qed.

Lemma quiet_whole_lines (Y rest : text) :
  unmarked (Y ++ [NL]) -> untagged (Y ++ [NL]) ->
  quiet (Y ++ NL :: rest).
Proof.
  intros (H1 & H2 & _) (T1 & T2).
  assert (Hocc : forall p, occurs p (Y ++ [NL]) = false ->
                           occurs p Y = false).
  { intros p Hp. destruct (occurs p Y) eqn:HY; [|reflexivity].
    now rewrite (occurs_extend p Y [NL] HY) in Hp. }
  assert (Hlit : forall p, NL ∉ p -> occurs p (Y ++ [NL]) = false ->
                           starts p (Y ++ NL :: rest) = false).
  { intros p Hnl Hp. destruct (starts p (Y ++ NL :: rest)) eqn:Hs;
      [|reflexivity].
    apply starts_before_newline in Hs; [|assumption].
    apply (starts_extend p Y [NL]), starts_occurs in Hs. congruence. }
  repeat split; try (apply line_free_newline; now apply Hocc);
    apply Hlit; try assumption;
    intros Hin; vm_compute in Hin;
    repeat (apply elem_of_cons in Hin as [Hin|Hin]; [discriminate|]);
    now apply elem_of_nil in Hin.
Qed.

(** A line deleted for its word: behind whole lines without markers and
    words, a line that holds "@author" or "@version" is left out together
    with its newline, whatever else it holds, an opening marker
    included; the filter goes on behind it as at the beginning of a
    file. *)
Theorem filterh_tagged_line (pre l post : text) :
  whole_lines pre -> unmarked pre -> untagged pre ->
  NL ∉ l ->
  occurs (chars "@author") l = true \/ occurs (chars "@version") l = true ->
  filterh (pre ++ l ++ NL :: post) = pre ++ filterh post.
Proof.
  intros Hw Hm Ht Hl Hword.
  change (filterh (pre ++ l ++ NL :: post))
    with (scan INITIAL true (pre ++ l ++ NL :: post)).
  rewrite (pass_through
             (fun t => whole_lines t /\ unmarked t /\ untagged t)
             (l ++ NL :: post)); [| |exact (conj Hw (conj Hm Ht))].
  - f_equal.
    assert (Hbol : match last pre with
                   | Some c => Ascii.eqb c NL
                   | None => true
                   end = true)
      by (destruct Hw as [Hw|Hw]; rewrite Hw;
          [reflexivity|apply Ascii.eqb_refl]).
    rewrite Hbol. now apply tag_step.
  - intros c t (Hw' & Hm' & Ht').
    destruct (unmarked_tail c t Hm') as [Hc Hm''].
    destruct (whole_lines_tail c t Hw') as [Hw'' [Y HY]].
    split; [assumption|]. split; [|repeat split; try assumption].
    + change (c :: t ++ l ++ NL :: post)
        with ((c :: t) ++ l ++ NL :: post).
      rewrite HY in *. rewrite <- app_assoc. cbn [app].
      now apply quiet_whole_lines.
    + apply Hm''.
    + apply Hm''.
    + apply Hm''.
    + now apply (untagged_tail c) in Ht' as [? ?].
    + now apply (untagged_tail c) in Ht' as [? ?].
Qed.
End Scanner.
(** *** The filter at work *)

Ltac no_such_char :=
  let Hin := fresh "Hin" in
  intros Hin; vm_compute in Hin;
  repeat (apply elem_of_cons in Hin as [Hin|Hin]; [discriminate|]);
  now apply elem_of_nil in Hin.

(** The protected part of [ResultSet.h] is taken out, the lines around
    it stay. *)
Example filterh_ResultSet_h :
  filterh (chars "typedef struct ResultSet_S *T;" ++ NL ::
           chars "//<< Protected methods" ++ NL ::
           chars "void ResultSet_free(T *R);" ++ NL ::
           chars "//>> End Protected methods" ++ NL ::
           chars "int ResultSet_getColumnCount(T R);" ++ [NL])
  = chars "typedef struct ResultSet_S *T;" ++ NL ::
    chars "int ResultSet_getColumnCount(T R);" ++ [NL].
Proof. reflexivity. Qed.

(** A marker on a line that is deleted for its word opens no block: what
    follows is written. *)
Example filterh_marker_on_tagged_line :
  filterh (chars "//<< @author" ++ NL :: chars "kept" ++ [NL])
  = chars "kept" ++ [NL].
Proof. reflexivity. Qed.

Lemma filterh_plain_text_witness :
  unmarked (chars "int ResultSet_next(T R);" ++ [NL]) /\
  untagged (chars "int ResultSet_next(T R);" ++ [NL]) /\
  filterh (chars "int ResultSet_next(T R);" ++ [NL])
    = chars "int ResultSet_next(T R);" ++ [NL].
Proof.
  assert (Hm : unmarked (chars "int ResultSet_next(T R);" ++ [NL]))
    by (repeat split; try reflexivity; no_such_char).
  assert (Ht : untagged (chars "int ResultSet_next(T R);" ++ [NL]))
    by (split; reflexivity).
  split; [exact Hm|]. split; [exact Ht|].
  exact (filterh_plain_text _ Hm Ht).
Defined.

Lemma filterh_block_witness :
  filterh (chars "#define T ResultSet_T;" ++ opener Slashes
             ++ (chars " Protected" ++ NL :: chars "void f(T *R);" ++ [NL])
             ++ closer Slashes ++ chars " End Protected"
             ++ NL :: chars "int g(T R);")
  = chars "#define T ResultSet_T;" ++ filterh (chars "int g(T R);").
Proof.
  apply (filterh_block Slashes (chars "#define T ResultSet_T;")
           (chars " Protected" ++ NL :: chars "void f(T *R);" ++ [NL])
           (chars " End Protected") (chars "int g(T R);")).
  - repeat split; try reflexivity. no_such_char.
  - split; reflexivity.
  - reflexivity.
  - no_such_char.
Defined.

Lemma filterh_open_block_witness :
  filterh (chars "x = 1;" ++ opener Hash ++ chars " the rest" ++ [NL])
  = chars "x = 1;".
Proof.
  apply (filterh_open_block Hash (chars "x = 1;")
           (chars " the rest" ++ [NL])).
  - repeat split; try reflexivity. no_such_char.
  - split; reflexivity.
  - reflexivity.
Defined.

Lemma filterh_tagged_line_witness :
  filterh ((chars "/**" ++ [NL]) ++ chars " * @author me //<< x"
             ++ NL :: chars " */")
  = (chars "/**" ++ [NL]) ++ filterh (chars " */").
Proof.
  apply (filterh_tagged_line (chars "/**" ++ [NL])
           (chars " * @author me //<< x") (chars " */")).
  - right. reflexivity.
  - repeat split; try reflexivity. no_such_char.
  - split; reflexivity.
  - no_such_char.
  - left. reflexivity.
Defined.

(** What the backend of the example is handed: the bindings arrive with
    their own indices and values, the refused one leaves no trace in it,
    and each query uses up one reply. *)
Example backend_receives_calls :
  let s := run [Set_ 1 (VInt32 7); Set_ 3 (VString None);
                Set_ 2 (VString (Some "ok")); ExecuteQuery; RowsChanged]
             (Demo.statement, Mem_empty) in
  Demo.bound (D (fst s)) = [(2, VString (Some "ok")); (1, VInt32 7)] /\
  Demo.replies (D (fst s)) = [None].
Proof. split; reflexivity. Qed.

(** Binding, also with an index the backend refuses, and reading the
    counts leave the result set of the first query in place. *)
Lemma result_set_survives_other_calls_witness :
  let s := run [ExecuteQuery] (Demo.statement, Mem_empty) in
  let cs := [Set_ 1 (VInt32 7); Set_ 3 (VString None); RowsChanged;
             GetParameterCount] in
  forallb keeps_result cs = true /\
  resultSet (fst s) = Some 0%nat /\
  resultSet (fst (run cs s)) = resultSet (fst s) /\
  results (snd (run cs s)) = results (snd s) /\
  allocated (snd (run cs s)) = allocated (snd s).
Proof.
  intros s cs. split; [reflexivity|]. split; [reflexivity|].
  exact (result_set_survives_other_calls cs s eq_refl).
Defined.
